(** * RIASEC quiz: scoring, tie-break selection and code resolution

    Shallow embedding of the decision logic of [app.py]:
    [calculate_scores], [identify_tie_pairs], [get_questions_for_pairs]
    and [resolve_riasec_code], with the properties the specification
    states about them.

    Conventions.  A Python [int] is a [Z].  A [dict] whose items are
    iterated or sorted is an association list in insertion order with
    distinct keys; a [dict] or [Counter] that is only looked up and updated
    is a [gmap]; a [set] of strings is a [gset string].  The session's
    answers are passed to [calculate_scores] as an argument.  An option
    label is a string; [calculate_scores_json] runs the same loop on
    answers whose label may be any JSON value, and may raise. *)

From Stdlib Require Import ZArith Ascii String.
From stdpp Require Import gmap strings list sorting pretty.

Local Open Scope Z_scope.

(** ** Python primitives used by the program *)

Module Py.

(** [sorted(l)] compares elements with [<] only and is stable.  [lt x y]
    plays the role of [x < y] on the sort keys; an element coming from
    the left is placed in front of the first element that is not
    strictly smaller. *)
Fixpoint insert {A} (lt : A → A → bool) (x : A) (l : list A) : list A :=
  match l with
  | [] => [x]
  | y :: l' => if lt y x then y :: insert lt x l' else x :: y :: l'
  end.

Definition sorted {A} (lt : A → A → bool) (l : list A) : list A :=
  foldr (insert lt) [] l.

(** [reverse=True]: the list is sorted as if each comparison were
    reversed; stability is kept. *)
Definition reversed {A} (lt : A → A → bool) : A → A → bool :=
  λ x y, lt y x.

(** [x < y] on the pairs [(int, str)] used as a sort key. *)
Definition tuple_ltb (x y : Z * string) : bool :=
  if x.1 =? y.1 then String.ltb x.2 y.2 else x.1 <? y.1.

(** [''.join(l)] *)
Definition join (l : list string) : string := String.concat "" l.

(** [k in d] on a dict kept as an association list. *)
Definition dict_mem {V} (k : string) (d : list (string * V)) : bool :=
  bool_decide (k ∈ d.*1).

(** [d[k] += n] on a dict kept as an association list; the key is
    present and keeps its place. *)
Definition dict_add (k : string) (n : Z) (d : list (string * Z))
  : list (string * Z) :=
  (λ e, if decide (e.1 = k) then (e.1, e.2 + n) else e) <$> d.

(** [c[k]] on a [Counter]: a missing key counts as [0]. *)
Definition counter_get (c : gmap string Z) (k : string) : Z :=
  default 0 (c !! k).

(** [c[k] += n] on a [Counter]. *)
Definition counter_add (k : string) (n : Z) (c : gmap string Z)
  : gmap string Z :=
  <[k := counter_get c k + n]> c.

End Py.

(** The library functions the program calls on strings: [int(s)] ([None]
    when it raises), [s.lower()] and [re.search(pattern, s)] seen as a
    truth value. *)
Class PyLib := {
  py_int : string → option Z;
  py_lower : string → string;
  re_search : string → string → bool;
}.

(** ** Question banks *)

(** An option of a question: [option.get('riasec')] and
    [option.get('aptitudes')], each possibly absent. *)
Record Choice := {
  o_riasec : option string;
  o_aptitudes : option (list (string * Z));
}.

(** A question: [q['number']], [q.get('options')], [q.get('pair')] and the
    free-text fields read by the text enrichment ([None] when the field is
    absent). *)
Record Question := {
  q_number : Z;
  q_options : option (gmap string Choice);
  q_pair : option string;
  q_explain : option string;
  q_hint : option string;
  q_job_text : option string;
}.

(** The two banks imported from [questions.main_questions] and
    [questions.tie_breaker_questions]. *)
Class QuestionBanks := {
  QUESTIONS : list Question;
  TIE_BREAKER_QUESTIONS : list Question;
}.

(** ** Aptitude taxonomy *)

Definition NEW_APTITUDES : list string :=
  [ "Logical Reasoning"; "Mechanical"; "Creative"; "Verbal Communication";
    "Numerical"; "Social/Helping"; "Leadership/Persuasion"; "Digital/Computer";
    "Organizing/Structuring"; "Writing/Expression"; "Scientific";
    "Spatial/Design" ].

Definition OLD_TO_NEW_APT_MAP : gmap string (list string) :=
  list_to_map
    [ ("Analytical", ["Logical Reasoning"]);
      ("Technical", ["Mechanical"]);
      ("Spatial", ["Spatial/Design"]);
      ("Verbal", ["Verbal Communication"]);
      ("Creative", ["Creative"]) ].

Definition KEYWORD_TO_APTS : list (string * list string) :=
  [ ("mechanic|machin|tool|repair|operate|equipment|assembly",
     ["Mechanical"; "Spatial/Design"]);
    ("design|creative|art|visual|graphic|illustrat|style|compose",
     ["Creative"; "Writing/Expression"; "Spatial/Design"]);
    ("analy|research|study|evaluate|experiment|data|statistic",
     ["Logical Reasoning"; "Scientific"; "Numerical"]);
    ("teach|help|support|counsel|mentor|coach",
     ["Social/Helping"; "Verbal Communication"]);
    ("lead|manage|supervis|coordinate|direct|influence|persuad",
     ["Leadership/Persuasion"; "Organizing/Structuring"]);
    ("software|digital|computer|it|program|code|data entry|excel",
     ["Digital/Computer"; "Organizing/Structuring"]);
    ("write|document|report|communicat|present",
     ["Writing/Expression"; "Verbal Communication"]);
    ("budget|finance|cost|account|number|math|calculate",
     ["Numerical"]) ].

Definition RIASEC : list string := ["R"; "I"; "A"; "S"; "E"; "C"].

(** ** Text enrichment *)

(** [enrich_from_text(text)]: a [Counter] of boosts. *)
Definition enrich_from_text `{PyLib} (text : string) : gmap string Z :=
  let boosts : gmap string Z := ∅ in
  if decide (text = "") then boosts else
  let txt := py_lower text in
  foldl (λ boosts '(patt, apt_list),
           if re_search patt txt
           then foldl (λ boosts a, Py.counter_add a 1 boosts) boosts apt_list
           else boosts)
        boosts KEYWORD_TO_APTS.

(** ** Score calculation *)

(** [next((q for q in bank if q['number'] == qnum), None)] *)
Definition find_question (bank : list Question) (qnum : Z) : option Question :=
  List.find (λ q, q_number q =? qnum) bank.

(** The bank lookup of [calculate_scores]: the main bank for numbers up to
    its size, the tie-breaker bank above. *)
Definition lookup_question `{QuestionBanks} (qnum : Z) : option Question :=
  let main_total := Z.of_nat (length QUESTIONS) in
  if qnum <=? main_total
  then find_question QUESTIONS qnum
  else find_question TIE_BREAKER_QUESTIONS qnum.

(** [question.get('options', {})] *)
Definition question_options (question : Question) : gmap string Choice :=
  default ∅ (q_options question).

(** The RIASEC count of one chosen option. *)
Definition count_riasec (option : Choice) (riasec_scores : list (string * Z))
  : list (string * Z) :=
  match o_riasec option with
  | Some riasec_code =>
      if Py.dict_mem riasec_code riasec_scores
      then Py.dict_add riasec_code 1 riasec_scores
      else riasec_scores
  | None => riasec_scores
  end.

(** The body of the loop over [option_apts.items()]. *)
Definition add_aptitude (aptitude_scores : gmap string Z)
    (item : string * Z) : gmap string Z :=
  let '(old_key, score) := item in
  match OLD_TO_NEW_APT_MAP !! old_key with
  | Some new_keys =>
      foldl (λ aptitude_scores new_key,
               Py.counter_add new_key score aptitude_scores)
            aptitude_scores new_keys
  | None =>
      if bool_decide (old_key ∈ NEW_APTITUDES)
      then Py.counter_add old_key score aptitude_scores
      else aptitude_scores
  end.

(** [option.get('aptitudes', {}) or {}] *)
Definition option_apts (option : Choice) : list (string * Z) :=
  default [] (o_aptitudes option).

(** The body of the loop over ['explain'], ['hint'] and ['job_text']. *)
Definition add_text_boosts `{PyLib} (aptitude_scores : gmap string Z)
    (text_field : option string) : gmap string Z :=
  match text_field with
  | Some text =>
      let boosts := enrich_from_text text in
      foldl (λ aptitude_scores '(k, v), Py.counter_add k v aptitude_scores)
            aptitude_scores (map_to_list boosts)
  | None => aptitude_scores
  end.

(** The option an answer selects, when the three guards of the loop body
    let it through: the key is a number, the question exists, and the
    label is one of its options. *)
Definition chosen_option `{PyLib, QuestionBanks} (answer : string * string)
  : option (Question * Choice) :=
  let '(qnum_key, selected) := answer in
  match py_int qnum_key with
  | None => None
  | Some qnum =>
      match lookup_question qnum with
      | None => None
      | Some question =>
          match question_options question !! selected with
          | None => None
          | Some option => Some (question, option)
          end
      end
  end.

(** The body of the loop over the answers, on the pair of tallies. *)
Definition score_answer `{PyLib, QuestionBanks} (use_text_enrichment : bool)
    (scores : list (string * Z) * gmap string Z) (answer : string * string)
  : list (string * Z) * gmap string Z :=
  let '(riasec_scores, aptitude_scores) := scores in
  match chosen_option answer with
  | None => scores
  | Some (question, option) =>
      let riasec_scores := count_riasec option riasec_scores in
      let aptitude_scores :=
        foldl add_aptitude aptitude_scores (option_apts option) in
      let aptitude_scores :=
        if use_text_enrichment
        then foldl add_text_boosts aptitude_scores
               [q_explain question; q_hint question; q_job_text question]
        else aptitude_scores in
      (riasec_scores, aptitude_scores)
  end.

Definition riasec_zero : list (string * Z) := (λ c, (c, 0)) <$> RIASEC.

Definition aptitude_zero : gmap string Z :=
  list_to_map ((λ a, (a, 0)) <$> NEW_APTITUDES).

(** [calculate_scores] on a record whose labels are strings, the form in
    which the page posts them. *)
Definition calculate_scores `{PyLib, QuestionBanks}
    (use_text_enrichment : bool) (answers : list (string * string))
  : list (string * Z) * gmap string Z :=
  foldl (score_answer use_text_enrichment) (riasec_zero, aptitude_zero)
        answers.

(** ** Answers as the session stores them *)

(** [/save_answer] stores the posted [answer] as it comes, so that a label
    of the session may be any JSON value.  [Jnumber] stands for the
    integers; a float behaves like one here, since all the scoring does
    with a label is to look it up among the option labels of a question,
    which are strings. *)
#[warnings="-register-all"]
Inductive Json :=
  | Jnull
  | Jbool (b : bool)
  | Jnumber (n : Z)
  | Jstring (s : string)
  | Jlist (items : list Json)
  | Jdict (items : list (string * Json)).

(** How a call ends: with a value, or with the [TypeError] that hashing a
    list or a dict raises. *)
Inductive Outcome (A : Type) :=
  | returned (a : A)
  | raised_TypeError.

Arguments returned {A} a.
Arguments raised_TypeError {A}.

(** [hash(v)] succeeds: lists and dicts are unhashable. *)
Definition hashable (v : Json) : bool :=
  match v with
  | Jlist _ | Jdict _ => false
  | _ => true
  end.

(** [key in d] followed by [d[key]] on a dict whose keys are strings: the
    key is hashed first; a hashable value that is no string equals no
    key. *)
Definition dict_lookup {V} (d : gmap string V) (key : Json)
  : Outcome (option V) :=
  match key with
  | Jstring k => returned (d !! k)
  | Jlist _ | Jdict _ => raised_TypeError
  | Jnull | Jbool _ | Jnumber _ => returned None
  end.

(** The body of the loop over the answers, for a label that may be any
    JSON value.  Only the conversion of the key stands inside a [try]; the
    membership test on the label does not. *)
Definition score_answer_json `{PyLib, QuestionBanks}
    (use_text_enrichment : bool)
    (scores : list (string * Z) * gmap string Z) (answer : string * Json)
  : Outcome (list (string * Z) * gmap string Z) :=
  let '(riasec_scores, aptitude_scores) := scores in
  let '(qnum_key, selected) := answer in
  match py_int qnum_key with
  | None => returned scores
  | Some qnum =>
      match lookup_question qnum with
      | None => returned scores
      | Some question =>
          match dict_lookup (question_options question) selected with
          | raised_TypeError => raised_TypeError
          | returned None => returned scores
          | returned (Some option) =>
              let riasec_scores := count_riasec option riasec_scores in
              let aptitude_scores :=
                foldl add_aptitude aptitude_scores (option_apts option) in
              let aptitude_scores :=
                if use_text_enrichment
                then foldl add_text_boosts aptitude_scores
                       [q_explain question; q_hint question;
                        q_job_text question]
                else aptitude_scores in
              returned (riasec_scores, aptitude_scores)
          end
      end
  end.

(** [calculate_scores] on the answers as the session stores them: an
    exception leaves the loop and the function. *)
Definition calculate_scores_json `{PyLib, QuestionBanks}
    (use_text_enrichment : bool) (answers : list (string * Json))
  : Outcome (list (string * Z) * gmap string Z) :=
  foldl (λ scores answer,
           match scores with
           | returned scores =>
               score_answer_json use_text_enrichment scores answer
           | raised_TypeError => raised_TypeError
           end)
        (returned (riasec_zero, aptitude_zero)) answers.

(** ** Tie-breaker helpers *)

(** [a,b = sorted([x, y]); f"{a}-{b}"] *)
Definition pair_name (x y : string) : string :=
  match Py.sorted String.ltb [x; y] with
  | [a; b] => a +:+ "-" +:+ b
  | _ => ""
  end.

(** The two nested [for] loops over [range(len(l))] and
    [range(i+1, len(l))]. *)
Definition add_index_pairs (l : list string) (pairs : gset string)
  : gset string :=
  foldl (λ pairs i,
    foldl (λ pairs j, {[ pair_name (l !!! i) (l !!! j) ]} ∪ pairs)
          pairs (seq (i + 1) (length l - (i + 1))))
    pairs (seq 0 (length l)).

Definition score_key_ltb (x y : string * Z) : bool := x.2 <? y.2.

(** [sorted(riasec_scores.items(), key=lambda x: x[1], reverse=True)] *)
Definition sorted_by_score (riasec_scores : list (string * Z))
  : list (string * Z) :=
  Py.sorted (Py.reversed score_key_ltb) riasec_scores.

Definition identify_tie_pairs (riasec_scores : list (string * Z)) (delta : Z)
  : gset string :=
  let sorted_by_score := sorted_by_score riasec_scores in
  if (length sorted_by_score <? 3)%nat then ∅ else
  let codes_order := sorted_by_score.*1 in
  let scores := sorted_by_score.*2 in
  match scores, codes_order with
  | first_score :: second_score :: third_score :: _,
    first_code :: second_code :: third_code :: _ =>
      let pairs : gset string := ∅ in
      let pairs :=
        if first_score - second_score <? delta
        then {[ pair_name first_code second_code ]} ∪ pairs else pairs in
      let pairs :=
        if second_score - third_score <? delta
        then {[ pair_name second_code third_code ]} ∪ pairs else pairs in
      let third_place_codes :=
        (filter (λ e, e.2 = third_score) sorted_by_score).*1 in
      if (1 <? length third_place_codes)%nat
      then add_index_pairs third_place_codes pairs
      else pairs
  | _, _ => ∅
  end.

(** [pairs] lists the pair strings in the order the loop meets them: a
    Python set has no duplicates and no fixed iteration order. *)
Definition get_questions_for_pairs `{QuestionBanks}
    (pairs : list string) (already_asked : gset string) : list Question :=
  foldl (λ new_qs pair,
           if bool_decide (pair ∈ already_asked) then new_qs else
           let matched :=
             filter (λ q, q_pair q = Some pair) TIE_BREAKER_QUESTIONS in
           match matched with
           | [] => new_qs
           | _ => new_qs ++ take 2 matched
           end)
        [] pairs.

(** ** Results resolver *)

Definition resolve_key (e : string * Z) : Z * string := (- e.2, e.1).

Definition resolve_ltb (x y : string * Z) : bool :=
  Py.tuple_ltb (resolve_key x) (resolve_key y).

Definition resolve_riasec_code (riasec_scores : list (string * Z)) : string :=
  let ordered := Py.sorted resolve_ltb riasec_scores in
  let top3 := take 3 ordered in
  Py.join (top3.*1).

(** ** The tie-break rule in the words of the specification *)



(** Descending by score: an entry may stand in front of another one when
    its score is not smaller. *)
Definition score_ge (x y : string * Z) : Prop := y.2 ≤ x.2.

(** [x] may stand in front of [y] in a list sorted with [lt]. *)
Definition not_after {A} (lt : A → A → bool) (x y : A) : Prop :=
  lt y x = false.

(** The score ranked third by [identify_tie_pairs]. *)
Definition third_score (t : list (string * Z)) : option Z :=
  (sorted_by_score t).*2 !! 2%nat.

(** ** The resolver's order in the words of the specification *)

(** Descending score, with ascending letter as tie-break: [x] may stand in
    front of [y]. *)
Definition rank_le (x y : string * Z) : Prop :=
  y.2 < x.2 ∨ (x.2 = y.2 ∧ String.le x.1 y.1).

(** ** Scoring in the words of the specification *)

Definition sum_scores (l : list Z) : Z := foldr Z.add 0 l.

(** The sum of [f x] over the elements [x] of [l]. *)
Definition sum_of {A} (f : A → Z) (l : list A) : Z := sum_scores (f <$> l).

(** The bank the size rule selects for a question number: the main bank
    for numbers up to its size, the tie-breaker bank above. *)
Definition selected_bank `{QuestionBanks} (qnum : Z) : list Question :=
  if decide (qnum ≤ Z.of_nat (length QUESTIONS))
  then QUESTIONS else TIE_BREAKER_QUESTIONS.

(** The question an answer key resolves to: the first question of the
    selected bank that bears the number the key denotes. *)
Definition resolved_question `{PyLib, QuestionBanks} (qnum_key : string)
  : option Question :=
  qnum ← py_int qnum_key;
  head (filter (λ q, q_number q = qnum) (selected_bank qnum)).

(** The question an answer resolves to together with the option its label
    selects among the options of that question. *)
Definition answered_choice `{PyLib, QuestionBanks} (answer : string * string)
  : option (Question * Choice) :=
  question ← resolved_question answer.1;
  options ← q_options question;
  option ← options !! answer.2;
  Some (question, option).

(** The answer selects an option that carries one of the six RIASEC
    codes. *)
Definition carries_riasec `{PyLib, QuestionBanks} (answer : string * string)
  : bool :=
  match answered_choice answer with
  | Some (_, option) =>
      match o_riasec option with
      | Some code => bool_decide (code ∈ RIASEC)
      | None => false
      end
  | None => false
  end.

(** The number of answered questions whose selected option carried a
    RIASEC code. *)
Definition riasec_answers `{PyLib, QuestionBanks}
    (answers : list (string * string)) : nat :=
  length (filter (λ answer, carries_riasec answer = true) answers).

(** The questions of a result that were contributed for the pair [p]. *)
Definition questions_for (p : string) (qs : list Question) : list Question :=
  filter (λ q, q_pair q = Some p) qs.

(** No option of the banks gives a negative weight to an aptitude. *)
Definition weights_nonneg `{QuestionBanks} : Prop :=
  ∀ question options label option entries,
    question ∈ QUESTIONS ++ TIE_BREAKER_QUESTIONS →
    q_options question = Some options →
    options !! label = Some option →
    o_aptitudes option = Some entries →
    Forall (λ entry, 0 ≤ entry.2) entries.

(** The answers of a stored record whose label is a string, as a record of
    string labels. *)
Definition string_answers (answers : list (string * Json))
  : list (string * string) :=
  omap (λ answer, match answer.2 with
                  | Jstring label => Some (answer.1, label)
                  | _ => None
                  end) answers.

(** A record of string labels as the session stores it. *)
Definition stored (answers : list (string * string)) : list (string * Json) :=
  prod_map id Jstring <$> answers.

(** *** The aptitude rule *)

(** The aptitudes an entry key feeds: a recognised legacy name feeds every
    new name it maps to; otherwise a name of the current taxonomy feeds
    itself; any other key feeds nothing. *)
Definition aptitude_targets (key : string) : list string :=
  match OLD_TO_NEW_APT_MAP !! key with
  | Some new_names => new_names
  | None => if bool_decide (key ∈ NEW_APTITUDES) then [key] else []
  end.

(** What one entry [(key, weight)] of an option adds to the aptitude
    [a]. *)
Definition entry_gain (a : string) (entry : string * Z) : Z :=
  if bool_decide (a ∈ aptitude_targets entry.1) then entry.2 else 0.

(** What the text of one field of a question adds to the aptitude [a]
    when the text enrichment is on. *)
Definition text_gain `{PyLib} (a : string) (text_field : option string) : Z :=
  match text_field with
  | Some text => Py.counter_get (enrich_from_text text) a
  | None => 0
  end.

(** What one answer adds to the aptitude [a]: the gains of the entries of
    the aptitude mapping of the option it selects, and with the text
    enrichment the gains of the three text fields of its question; nothing
    when it selects no option. *)
Definition answer_gain `{PyLib, QuestionBanks} (use_text_enrichment : bool)
    (a : string) (answer : string * string) : Z :=
  match answered_choice answer with
  | Some (question, option) =>
      sum_of (entry_gain a) (default [] (o_aptitudes option))
      + (if use_text_enrichment
         then sum_of (text_gain a)
                [q_explain question; q_hint question; q_job_text question]
         else 0)
  | None => 0
  end.

(** ** Tallies used in the scenarios *)

(** [{R:5, I:5, A:4, S:2, E:1, C:0}] *)
Definition tally_scenario : list (string * Z) :=
  [("R", 5); ("I", 5); ("A", 4); ("S", 2); ("E", 1); ("C", 0)].


(** The same associations written in two key orders. *)
Definition tally_RIA : list (string * Z) :=
  [("R", 5); ("I", 4); ("A", 4); ("S", 0); ("E", 0); ("C", 0)].
Definition tally_RAI : list (string * Z) :=
  [("R", 5); ("A", 4); ("I", 4); ("S", 0); ("E", 0); ("C", 0)].

(** ** A small installation used to run the definitions

    [demo_int] reads a non-empty string of decimal digits, the form in
    which the session stores question numbers; [demo_lower] lowers ASCII
    letters; [demo_search] looks for one of the literal alternatives of a
    pattern written [a|b|c]. *)

Fixpoint digits_value (s : string) (acc : Z) : option Z :=
  match s with
  | EmptyString => Some acc
  | String c s' =>
      let n := Z.of_nat (nat_of_ascii c) in
      if (48 <=? n) && (n <=? 57)
      then digits_value s' (10 * acc + (n - 48))
      else None
  end.

Definition demo_int (s : string) : option Z :=
  match s with
  | EmptyString => None
  | _ => digits_value s 0
  end.

Fixpoint demo_lower (s : string) : string :=
  match s with
  | EmptyString => EmptyString
  | String c s' =>
      let n := nat_of_ascii c in
      String (if (65 <=? n)%nat && (n <=? 90)%nat
              then ascii_of_nat (n + 32) else c)
             (demo_lower s')
  end.

Fixpoint alternatives (patt : string) : list string :=
  match patt with
  | EmptyString => [EmptyString]
  | String c patt' =>
      if Ascii.eqb c "|" then EmptyString :: alternatives patt'
      else match alternatives patt' with
           | [] => [String c EmptyString]
           | alt :: alts => String c alt :: alts
           end
  end.

Definition demo_search (patt txt : string) : bool :=
  existsb (λ alt, if String.index 0 alt txt is Some _ then true else false)
          (alternatives patt).

Definition demo_lib : PyLib :=
  {| py_int := demo_int; py_lower := demo_lower; re_search := demo_search |}.

Definition demo_choice (code : string) (apts : list (string * Z)) : Choice :=
  {| o_riasec := Some code; o_aptitudes := Some apts |}.

Definition demo_question (n : Z) (a b : Choice) (p : option string)
    (text : string) : Question :=
  {| q_number := n;
     q_options := Some (<["A" := a]> (<["B" := b]> ∅));
     q_pair := p;
     q_explain := Some text; q_hint := None; q_job_text := None |}.

Definition demo_banks : QuestionBanks :=
  {| QUESTIONS :=
       [ demo_question 1
           (demo_choice "R" [("Technical", 2)])
           (demo_choice "I" [("Analytical", 2); ("Numerical", 1)])
           None "Repair a machine or study Data";
         demo_question 2
           (demo_choice "A" [("Creative", 1); ("Memory", 3)])
           (demo_choice "S" [("Social/Helping", 1)])
           None "Design a poster or help a friend" ];
     TIE_BREAKER_QUESTIONS :=
       [ demo_question 3 (demo_choice "I" []) (demo_choice "R" [])
           (Some "I-R") "";
         demo_question 4 (demo_choice "A" []) (demo_choice "I" [])
           (Some "A-I") "";
         demo_question 5 (demo_choice "R" []) (demo_choice "I" [])
           (Some "I-R") "";
         demo_question 6 (demo_choice "I" []) (demo_choice "R" [])
           (Some "I-R") "" ] |}.

(** [{'1': 'B', '2': 'A', '9': 'A', 'x': 'A', '3': 'B'}] *)
Definition demo_answers : list (string * string) :=
  [("1", "B"); ("2", "A"); ("9", "A"); ("x", "A"); ("3", "B")].

(** A bank whose first option weighs an aptitude negatively. *)
Definition negative_banks : QuestionBanks :=
  {| QUESTIONS :=
       [ demo_question 1
           (demo_choice "R" [("Numerical", -3)]) (demo_choice "I" [])
           None "" ];
     TIE_BREAKER_QUESTIONS := [] |}.

(** ** Deciding on a tie-breaker round *)

(** [app.config.get('TIE_BREAKER_DELTA', 1)]: the configuration may or may
    not set the margin. *)
Class Config := {
  TIE_BREAKER_DELTA : option Z;
}.

Definition configured_delta `{Config} : Z := default 1 TIE_BREAKER_DELTA.

Definition needs_tie_breaker `{Config} (riasec_scores : list (string * Z))
  : bool :=
  let delta := configured_delta in
  let pairs := identify_tie_pairs riasec_scores delta in
  bool_decide (0 < size pairs)%nat.

(** ** Figures of the results page *)

(** [sorted(riasec_scores.items(), key=lambda x:x[1], reverse=True)[:3]] *)
Definition top_riasec (riasec_scores : list (string * Z))
  : list (string * Z) :=
  take 3 (sorted_by_score riasec_scores).

(** [max(values, default=1)] *)
Definition max_score (values : list Z) : Z :=
  match values with
  | [] => 1
  | v :: values => foldl Z.max v values
  end.

Definition max_riasec_score (riasec_scores : list (string * Z)) : Z :=
  max_score (riasec_scores.*2).

(** The configuration that leaves the margin to its default. *)
Definition default_config : Config := {| TIE_BREAKER_DELTA := None |}.

(** ** The session and the routes that drive it

    The session is the record of the keys written by
    [initialize_session]; a session without these keys (before [/start],
    after [/restart]) is [None].  Each route takes the session and gives
    the session it leaves and its response.  The payload of
    [/save_answer] is read as a JSON integer and a JSON string, each
    possibly missing. *)

Module Flow.

Record Session := {
  current_question : Z;
  answers : list (string * string);
  riasec_scores : list (string * Z);
  tie_breaker_phase : bool;
  tie_breaker_questions : list Question;
  tie_breaker_pairs_asked : list string;
  tie_breaker_answered : Z;
  total_questions : Z;
}.

Definition set_current_question (v : Z) (s : Session) : Session :=
  {| current_question := v; answers := answers s;
     riasec_scores := riasec_scores s;
     tie_breaker_phase := tie_breaker_phase s;
     tie_breaker_questions := tie_breaker_questions s;
     tie_breaker_pairs_asked := tie_breaker_pairs_asked s;
     tie_breaker_answered := tie_breaker_answered s;
     total_questions := total_questions s |}.

Definition set_answers (v : list (string * string)) (s : Session) : Session :=
  {| current_question := current_question s; answers := v;
     riasec_scores := riasec_scores s;
     tie_breaker_phase := tie_breaker_phase s;
     tie_breaker_questions := tie_breaker_questions s;
     tie_breaker_pairs_asked := tie_breaker_pairs_asked s;
     tie_breaker_answered := tie_breaker_answered s;
     total_questions := total_questions s |}.

Definition set_tie_breaker_phase (v : bool) (s : Session) : Session :=
  {| current_question := current_question s; answers := answers s;
     riasec_scores := riasec_scores s;
     tie_breaker_phase := v;
     tie_breaker_questions := tie_breaker_questions s;
     tie_breaker_pairs_asked := tie_breaker_pairs_asked s;
     tie_breaker_answered := tie_breaker_answered s;
     total_questions := total_questions s |}.

Definition set_tie_breaker_questions (v : list Question) (s : Session)
  : Session :=
  {| current_question := current_question s; answers := answers s;
     riasec_scores := riasec_scores s;
     tie_breaker_phase := tie_breaker_phase s;
     tie_breaker_questions := v;
     tie_breaker_pairs_asked := tie_breaker_pairs_asked s;
     tie_breaker_answered := tie_breaker_answered s;
     total_questions := total_questions s |}.

Definition set_tie_breaker_pairs_asked (v : list string) (s : Session)
  : Session :=
  {| current_question := current_question s; answers := answers s;
     riasec_scores := riasec_scores s;
     tie_breaker_phase := tie_breaker_phase s;
     tie_breaker_questions := tie_breaker_questions s;
     tie_breaker_pairs_asked := v;
     tie_breaker_answered := tie_breaker_answered s;
     total_questions := total_questions s |}.

Definition set_tie_breaker_answered (v : Z) (s : Session) : Session :=
  {| current_question := current_question s; answers := answers s;
     riasec_scores := riasec_scores s;
     tie_breaker_phase := tie_breaker_phase s;
     tie_breaker_questions := tie_breaker_questions s;
     tie_breaker_pairs_asked := tie_breaker_pairs_asked s;
     tie_breaker_answered := v;
     total_questions := total_questions s |}.

Definition set_total_questions (v : Z) (s : Session) : Session :=
  {| current_question := current_question s; answers := answers s;
     riasec_scores := riasec_scores s;
     tie_breaker_phase := tie_breaker_phase s;
     tie_breaker_questions := tie_breaker_questions s;
     tie_breaker_pairs_asked := tie_breaker_pairs_asked s;
     tie_breaker_answered := tie_breaker_answered s;
     total_questions := v |}.

(** [url_for(...)] *)
Inductive Endpoint :=
  | to_index | to_assessment | to_submit_all_answers | to_results.

Inductive Phase := main | tie_breaker.

(** What a route answers: a redirect, the assessment page with its
    arguments, one of the two JSON bodies of [/save_answer], or an
    uncaught [IndexError]. *)
Inductive Response :=
  | redirect (target : Endpoint)
  | render_assessment (question : Question) (phase : Phase)
      (total_questions current_question : Z)
  | jsonify_redirect (success : bool) (target : Endpoint)
  | jsonify_msg (success : bool) (msg : string)
  | raise_IndexError.

(** The order in which a set of strings is iterated and listed: each
    element once, in an order left open. *)
Class SetOrder := {
  set_iter : gset string → list string;
  set_iter_perm : ∀ X, set_iter X ≡ₚ elements X;
}.

(** [l[i]]: a negative index counts from the end; [None] stands for
    [IndexError]. *)
Definition py_index {A} (l : list A) (i : Z) : option A :=
  let n := Z.of_nat (length l) in
  if 0 <=? i then l !! Z.to_nat i
  else if - n <=? i then l !! Z.to_nat (n + i)
  else None.

(** [d[k] = v]: the value of a present key is replaced in place, a new
    key is added at the end. *)
Fixpoint dict_set (k v : string) (d : list (string * string))
  : list (string * string) :=
  match d with
  | [] => [(k, v)]
  | (k', v') :: d' =>
      if decide (k' = k) then (k', v) :: d' else (k', v') :: dict_set k v d'
  end.

(** [str(n)] on an integer. *)
Definition py_str (n : Z) : string := pretty n.

Definition initialize_session `{QuestionBanks} : Session :=
  {| current_question := 1;
     answers := [];
     riasec_scores := riasec_zero;
     tie_breaker_phase := false;
     tie_breaker_questions := [];
     tie_breaker_pairs_asked := [];
     tie_breaker_answered := 0;
     total_questions := Z.of_nat (length QUESTIONS) |}.

Definition start_assessment `{QuestionBanks} (session : option Session)
  : option Session * Response :=
  (Some initialize_session, redirect to_assessment).

Definition assessment `{PyLib, QuestionBanks, Config, SetOrder}
    (session : option Session) : option Session * Response :=
  match session with
  | None => (None, redirect to_index)
  | Some s =>
      let main_total := Z.of_nat (length QUESTIONS) in
      if negb (tie_breaker_phase s) then
        if current_question s <=? main_total then
          match py_index QUESTIONS (current_question s - 1) with
          | Some q =>
              (Some s,
               render_assessment q main main_total (current_question s))
          | None => (Some s, raise_IndexError)
          end
        else
          let riasec_scores := (calculate_scores false (answers s)).1 in
          let delta := configured_delta in
          let pairs_needed := identify_tie_pairs riasec_scores delta in
          if bool_decide (pairs_needed ≠ ∅) then
            let s := set_tie_breaker_phase true s in
            let already : gset string :=
              list_to_set (tie_breaker_pairs_asked s) in
            let new_qs :=
              get_questions_for_pairs (set_iter pairs_needed) already in
            match new_qs with
            | [] => (Some s, redirect to_submit_all_answers)
            | _ =>
                let s := set_tie_breaker_questions new_qs s in
                let to_mark :=
                  filter (λ p, p ∉ already) (set_iter pairs_needed) in
                let s :=
                  set_tie_breaker_pairs_asked
                    (set_iter (list_to_set (tie_breaker_pairs_asked s)
                               ∪ list_to_set to_mark)) s in
                let s := set_tie_breaker_answered 0 s in
                let s :=
                  set_total_questions
                    (main_total
                     + Z.of_nat (length (tie_breaker_questions s))) s in
                (Some s, redirect to_assessment)
            end
          else (Some s, redirect to_submit_all_answers)
      else
        let tie_qs := tie_breaker_questions s in
        let answered := tie_breaker_answered s in
        if answered <? Z.of_nat (length tie_qs) then
          match py_index tie_qs answered with
          | Some q =>
              let current_q_number := main_total + answered + 1 in
              (Some s,
               render_assessment q tie_breaker (total_questions s)
                 current_q_number)
          | None => (Some s, raise_IndexError)
          end
        else
          let riasec_scores := (calculate_scores false (answers s)).1 in
          let delta := configured_delta in
          let pairs_needed := identify_tie_pairs riasec_scores delta in
          let already : gset string :=
            list_to_set (tie_breaker_pairs_asked s) in
          let remaining_pairs := pairs_needed ∖ already in
          if bool_decide (remaining_pairs ≠ ∅) then
            let new_qs :=
              get_questions_for_pairs (set_iter remaining_pairs) already in
            match new_qs with
            | [] => (Some s, redirect to_submit_all_answers)
            | _ =>
                let s :=
                  set_tie_breaker_questions
                    (tie_breaker_questions s ++ new_qs) s in
                let to_mark :=
                  filter (λ p, p ∉ already) (set_iter remaining_pairs) in
                let s :=
                  set_tie_breaker_pairs_asked
                    (set_iter (list_to_set (tie_breaker_pairs_asked s)
                               ∪ list_to_set to_mark)) s in
                let s :=
                  set_total_questions
                    (total_questions s + Z.of_nat (length new_qs)) s in
                (Some s, redirect to_assessment)
            end
          else (Some s, redirect to_submit_all_answers)
  end.

Definition save_answer `{QuestionBanks}
    (question_number : option Z) (answer : option string)
    (session : option Session) : option Session * Response :=
  match session with
  | None => (None, jsonify_redirect false to_index)
  | Some s =>
      match question_number, answer with
      | Some qnum, Some ans =>
          let s := set_answers (dict_set (py_str qnum) ans (answers s)) s in
          let main_total := Z.of_nat (length QUESTIONS) in
          let s :=
            if main_total <? qnum then
              match find_question TIE_BREAKER_QUESTIONS qnum with
              | Some qobj =>
                  match q_pair qobj with
                  | Some pair' =>
                      if bool_decide
                           (pair' ≠ "" ∧ pair' ∉ tie_breaker_pairs_asked s)
                      then set_tie_breaker_pairs_asked
                             (tie_breaker_pairs_asked s ++ [pair']) s
                      else s
                  | None => s
                  end
              | None => s
              end
            else s in
          let s :=
            if negb (tie_breaker_phase s) then
              set_current_question (current_question s + 1) s
            else
              let s :=
                set_tie_breaker_answered (tie_breaker_answered s + 1) s in
              set_current_question
                (main_total + tie_breaker_answered s + 1) s in
          (Some s, jsonify_redirect true to_assessment)
      | _, _ => (Some s, jsonify_msg false "missing payload")
      end
  end.

Definition submit_all_answers (session : option Session)
  : option Session * Response :=
  match session with
  | Some s =>
      match answers s with
      | [] => (session, redirect to_index)
      | _ => (session, redirect to_results)
      end
  | None => (session, redirect to_index)
  end.

Definition restart (session : option Session) : option Session * Response :=
  (None, redirect to_index).

(** The sessions that requests to [/start], [/assessment], [/save_answer]
    and [/restart] can produce, in any order and with any payload. *)
Inductive reachable `{PyLib, QuestionBanks, Config, SetOrder}
  : option Session → Prop :=
  | reachable_none : reachable None
  | reachable_start session :
      reachable session → reachable (start_assessment session).1
  | reachable_assessment session :
      reachable session → reachable (assessment session).1
  | reachable_save_answer question_number answer session :
      reachable session →
      reachable (save_answer question_number answer session).1
  | reachable_restart session :
      reachable session → reachable (restart session).1.

(** What every reachable session satisfies. *)
Record consistent `{QuestionBanks} (s : Session) : Prop := {
  consistent_total :
    total_questions s =
    Z.of_nat (length QUESTIONS) + Z.of_nat (length (tie_breaker_questions s));
  consistent_current : 1 ≤ current_question s;
  consistent_answered : 0 ≤ tie_breaker_answered s;
  consistent_asked :
    ∀ q, q ∈ tie_breaker_questions s →
      q ∈ TIE_BREAKER_QUESTIONS
      ∧ ∃ p, q_pair q = Some p ∧ p ∈ tie_breaker_pairs_asked s;
  consistent_two :
    ∀ p, (length (questions_for p (tie_breaker_questions s)) ≤ 2)%nat;
  consistent_main :
    tie_breaker_phase s = false → tie_breaker_questions s = [];
  consistent_keys : NoDup (answers s).*1;
}.

(** The order of iteration used to run the examples. *)
Definition elements_order : SetOrder :=
  {| set_iter := elements; set_iter_perm := λ X, reflexivity (elements X) |}.

End Flow.

(** A session of the small installation: both main questions answered
    with a tie between I and A, then [/assessment] called once. *)
Definition demo_session : Flow.Session :=
  Eval vm_compute in
    default (@Flow.initialize_session demo_banks)
      (@Flow.assessment demo_lib demo_banks default_config Flow.elements_order
         (@Flow.save_answer demo_banks (Some 2) (Some "A")
            (@Flow.save_answer demo_banks (Some 1) (Some "B")
               (@Flow.start_assessment demo_banks None).1).1).1).1.

(** The same session just before [/assessment] is called. *)
Definition demo_session_answered : Flow.Session :=
  Eval vm_compute in
    default (@Flow.initialize_session demo_banks)
      (@Flow.save_answer demo_banks (Some 2) (Some "A")
         (@Flow.save_answer demo_banks (Some 1) (Some "B")
            (@Flow.start_assessment demo_banks None).1).1).1.

(** * Properties *)

(** Closed decidable facts are settled by evaluation. *)
Ltac compute_decide :=
  apply (bool_decide_unpack _); vm_compute; exact I.

(** ** Sorting *)

Section sorted_facts.
Context {A : Type} (lt : A → A → bool).

Lemma insert_Permutation x l : Py.insert lt x l ≡ₚ x :: l.
Proof.
  induction l as [|y l IH]; simpl; [done|].
  destruct (lt y x); [|done].
  rewrite IH. apply Permutation_swap.
Qed.

Lemma sorted_Permutation l : Py.sorted lt l ≡ₚ l.
Proof.
  induction l as [|x l IH]; simpl; [done|].
  fold (Py.sorted lt l). by rewrite insert_Permutation, IH.
Qed.

Lemma sorted_length l : length (Py.sorted lt l) = length l.
Proof. by rewrite sorted_Permutation. Qed.

Hypothesis lt_asym : ∀ x y, lt x y = true → lt y x = false.
Hypothesis not_after_trans : Transitive (not_after lt).

Lemma insert_StronglySorted x l :
  StronglySorted (not_after lt) l → StronglySorted (not_after lt) (Py.insert lt x l).
Proof.
  induction 1 as [|y l Hl IH Hy]; simpl.
  { repeat constructor. }
  destruct (lt y x) eqn:Hyx.
  - constructor; [done|].
    rewrite insert_Permutation. constructor; [|done].
    by apply lt_asym.
  - constructor; [by constructor|].
    constructor; [done|].
    eapply List.Forall_impl; [|exact Hy].
    intros z Hz. by trans y.
Qed.

Lemma sorted_StronglySorted l : StronglySorted (not_after lt) (Py.sorted lt l).
Proof.
  induction l as [|x l IH]; simpl; [constructor|].
  by apply insert_StronglySorted.
Qed.
End sorted_facts.

Lemma StronglySorted_mono {A} (R R' : relation A) l :
  (∀ x y, R x y → R' x y) → StronglySorted R l → StronglySorted R' l.
Proof.
  intros HR. induction 1 as [|x l Hl IH Hx]; constructor; [done|].
  eapply List.Forall_impl; [|exact Hx]. auto.
Qed.

Lemma sorted_by_score_Permutation t : sorted_by_score t ≡ₚ t.
Proof. apply sorted_Permutation. Qed.

Lemma sorted_by_score_sorted t : StronglySorted score_ge (sorted_by_score t).
Proof.
  apply (StronglySorted_mono (not_after (Py.reversed score_key_ltb))).
  { intros x y. unfold not_after, Py.reversed, score_key_ltb, score_ge. lia. }
  apply sorted_StronglySorted.
  - intros x y. unfold Py.reversed, score_key_ltb. lia.
  - intros x y z. unfold not_after, Py.reversed, score_key_ltb. lia.
Qed.

(** ** Pair names *)

Lemma pair_name_unfold x y :
  pair_name x y =
  if String.ltb y x then y +:+ "-" +:+ x else x +:+ "-" +:+ y.
Proof. unfold pair_name. simpl. by destruct (String.ltb y x). Qed.

Lemma string_ltb_asym x y : String.ltb x y = true → String.ltb y x = false.
Proof.
  unfold String.ltb. rewrite (String.compare_antisym y x).
  by destruct (String.compare x y).
Qed.

Lemma string_ltb_total x y :
  String.ltb x y = false → String.ltb y x = false → x = y.
Proof.
  unfold String.ltb. rewrite (String.compare_antisym y x).
  destruct (String.compare x y) eqn:E; try done.
  by apply String.compare_eq_iff in E.
Qed.

Lemma pair_name_comm x y : pair_name x y = pair_name y x.
Proof.
  rewrite !pair_name_unfold.
  destruct (String.ltb y x) eqn:Hyx.
  - by rewrite (string_ltb_asym _ _ Hyx).
  - destruct (String.ltb x y) eqn:Hxy; [done|].
    by rewrite (string_ltb_total _ _ Hxy Hyx).
Qed.

(** ** Sets accumulated by loops *)

Lemma elem_of_foldl_add {B} (g : gset string → B → gset string)
    (P : B → Prop) (p : string) :
  (∀ acc x, p ∈ g acc x ↔ p ∈ acc ∨ P x) →
  ∀ l acc, p ∈ foldl g acc l ↔ p ∈ acc ∨ ∃ x, x ∈ l ∧ P x.
Proof.
  intros Hg l. induction l as [|x l IH]; intros acc; simpl.
  - split; [auto|]. intros [?|(x & Hx & _)]; [done|]. by apply elem_of_nil in Hx.
  - rewrite IH, Hg. setoid_rewrite elem_of_cons. naive_solver.
Qed.

Lemma elem_of_add_index_pairs l acc p :
  p ∈ add_index_pairs l acc ↔
  p ∈ acc ∨ ∃ i j a b, (i < j)%nat ∧ l !! i = Some a ∧ l !! j = Some b
                       ∧ p = pair_name a b.
Proof.
  unfold add_index_pairs.
  rewrite (elem_of_foldl_add _
    (λ i, ∃ j, j ∈ seq (i + 1) (length l - (i + 1))
               ∧ p = pair_name (l !!! i) (l !!! j))).
  2:{ intros acc' i.
      rewrite (elem_of_foldl_add _ (λ j, p = pair_name (l !!! i) (l !!! j)));
        [done|].
      intros acc'' j. set_solver. }
  apply or_iff_compat_l. split.
  - intros (i & Hi & j & Hj & ->).
    apply elem_of_seq in Hi, Hj.
    destruct (lookup_lt_is_Some_2 l i) as [a Ha]; [lia|].
    destruct (lookup_lt_is_Some_2 l j) as [b Hb]; [lia|].
    exists i, j, a, b.
    rewrite (list_lookup_total_correct _ _ _ Ha).
    rewrite (list_lookup_total_correct _ _ _ Hb).
    repeat split; [lia|done..].
  - intros (i & j & a & b & Hij & Ha & Hb & ->).
    pose proof (lookup_lt_Some _ _ _ Ha). pose proof (lookup_lt_Some _ _ _ Hb).
    exists i. split; [apply elem_of_seq; lia|].
    exists j. split; [apply elem_of_seq; lia|].
    by rewrite (list_lookup_total_correct _ _ _ Ha),
               (list_lookup_total_correct _ _ _ Hb).
Qed.


(** With distinct entries, index pairs [i < j] and unordered pairs of
    distinct members name the same pairs. *)
Lemma index_pairs_unordered (l : list string) p :
  NoDup l →
  (∃ i j a b, (i < j)%nat ∧ l !! i = Some a ∧ l !! j = Some b
              ∧ p = pair_name a b) ↔
  (∃ a b, a ≠ b ∧ a ∈ l ∧ b ∈ l ∧ p = pair_name a b).
Proof.
  intros Hnd. split.
  - intros (i & j & a & b & Hij & Ha & Hb & ->). exists a, b.
    split; [|by eauto using list_elem_of_lookup_2].
    intros ->. pose proof (NoDup_lookup _ _ _ _ Hnd Ha Hb). lia.
  - intros (a & b & Hne & Ha & Hb & ->).
    apply list_elem_of_lookup in Ha as [i Hi], Hb as [j Hj].
    destruct (lt_eq_lt_dec i j) as [[?| ->]|?].
    + by exists i, j, a, b.
    + congruence.
    + exists j, i, b, a. by rewrite pair_name_comm.
Qed.

(** ** Membership in the result of [identify_tie_pairs] *)

Lemma tied_codes_NoDup (l : list (string * Z)) s :
  NoDup (l.*1) → NoDup ((filter (λ e, e.2 = s) l).*1).
Proof.
  intros Hnd. eapply sublist_NoDup; [exact Hnd|apply fmap_sublist, sublist_filter].
Qed.

Lemma elem_of_tied_codes (l : list (string * Z)) s a :
  a ∈ (filter (λ e, e.2 = s) l).*1 ↔ (a, s) ∈ l.
Proof.
  rewrite list_elem_of_fmap. split.
  - intros ([a' s'] & -> & Hx). apply list_elem_of_filter in Hx as [Hs Hx].
    simpl in *. by subst.
  - intros Ha. exists (a, s). split; [done|]. by apply list_elem_of_filter.
Qed.

Lemma elem_of_third_place_pairs (l : list string) acc p :
  p ∈ (if (1 <? length l)%nat then add_index_pairs l acc else acc) ↔
  p ∈ acc ∨ ∃ i j a b, (i < j)%nat ∧ l !! i = Some a ∧ l !! j = Some b
                       ∧ p = pair_name a b.
Proof.
  destruct (1 <? length l)%nat eqn:Hlen.
  - apply elem_of_add_index_pairs.
  - apply Nat.ltb_ge in Hlen. split; [auto|].
    intros [?|(i & j & a & b & Hij & Ha & Hb & _)]; [done|].
    apply lookup_lt_Some in Hb. lia.
Qed.

Lemma elem_of_identify_tie_pairs t delta c1 s1 c2 s2 c3 s3 rest p :
  NoDup (t.*1) →
  sorted_by_score t = (c1, s1) :: (c2, s2) :: (c3, s3) :: rest →
  p ∈ identify_tie_pairs t delta ↔
    (s1 - s2 < delta ∧ p = pair_name c1 c2)
    ∨ (s2 - s3 < delta ∧ p = pair_name c2 c3)
    ∨ (∃ a b, a ≠ b ∧ (a, s3) ∈ t ∧ (b, s3) ∈ t ∧ p = pair_name a b).
Proof.
  intros Hnd Hs. unfold identify_tie_pairs.
  assert (NoDup ((sorted_by_score t).*1)) as Hnd'.
  { by rewrite sorted_by_score_Permutation. }
  assert (∀ a, (a, s3) ∈ sorted_by_score t ↔ (a, s3) ∈ t) as Hin.
  { intros a. by rewrite sorted_by_score_Permutation. }
  revert Hnd' Hin. rewrite Hs. intros Hnd' Hin.
  change (length ((c1, s1) :: (c2, s2) :: (c3, s3) :: rest) <? 3)%nat
    with false.
  cbn [fmap list_fmap fst snd].
  rewrite elem_of_third_place_pairs.
  rewrite index_pairs_unordered by by apply tied_codes_NoDup.
  setoid_rewrite elem_of_tied_codes. setoid_rewrite Hin.
  destruct (Z.ltb_spec (s1 - s2) delta), (Z.ltb_spec (s2 - s3) delta);
    rewrite ?elem_of_union, ?elem_of_singleton, ?elem_of_empty;
    intuition (try done; try lia).
Qed.


Lemma identify_tie_pairs_short t delta :
  (length t < 3)%nat → identify_tie_pairs t delta = ∅.
Proof.
  intros Hlen. unfold identify_tie_pairs.
  pose proof (sorted_length (Py.reversed score_key_ltb) t) as Hl.
  fold (sorted_by_score t) in Hl.
  by destruct (Nat.ltb_spec (length (sorted_by_score t)) 3); [|lia].
Qed.


Lemma sorted_by_score_top3 t :
  (3 ≤ length t)%nat →
  ∃ c1 s1 c2 s2 c3 s3 rest,
    sorted_by_score t = (c1, s1) :: (c2, s2) :: (c3, s3) :: rest.
Proof.
  intros Hlen.
  pose proof (sorted_length (Py.reversed score_key_ltb) t) as Hl.
  fold (sorted_by_score t) in Hl.
  destruct (sorted_by_score t) as [|[c1 s1] [|[c2 s2] [|[c3 s3] rest]]];
    simpl in *; try lia.
  by exists c1, s1, c2, s2, c3, s3, rest.
Qed.

(** **** C1 *)


(** ** Independence of the key order *)

Lemma sorted_scores_Permutation t1 t2 :
  t1 ≡ₚ t2 → (sorted_by_score t1).*2 = (sorted_by_score t2).*2.
Proof.
  intros Hp.
  assert (AntiSymm (=) (λ x y : Z, y ≤ x)) by (intros x y ??; lia).
  apply (StronglySorted_unique (λ x y : Z, y ≤ x)).
  - apply StronglySorted_fmap with (R1 := score_ge);
      [|apply sorted_by_score_sorted].
    by intros x y.
  - apply StronglySorted_fmap with (R1 := score_ge);
      [|apply sorted_by_score_sorted].
    by intros x y.
  - by rewrite !sorted_by_score_Permutation, Hp.
Qed.

Lemma sorted_top3_inv (c1 c2 c3 : string) (s1 s2 s3 : Z) rest :
  StronglySorted score_ge ((c1, s1) :: (c2, s2) :: (c3, s3) :: rest) →
  s2 ≤ s1 ∧ s3 ≤ s2 ∧ ∀ c s, (c, s) ∈ rest → s ≤ s3.
Proof.
  intros Hs.
  apply StronglySorted_inv in Hs as [Hs H1].
  apply StronglySorted_inv in Hs as [Hs H2].
  apply StronglySorted_inv in Hs as [_ H3].
  apply Forall_cons in H1 as [H1 _]. apply Forall_cons in H2 as [H2 _].
  unfold score_ge in *. simpl in *. repeat split; [done..|].
  intros c s Hin. rewrite Forall_forall in H3. by apply H3 in Hin.
Qed.

(** For [delta <= 1] the result only depends on which categories hold
    which score. *)
Lemma elem_of_identify_tie_pairs_small t delta c1 s1 c2 s2 c3 s3 rest p :
  NoDup (t.*1) → delta ≤ 1 →
  sorted_by_score t = (c1, s1) :: (c2, s2) :: (c3, s3) :: rest →
  p ∈ identify_tie_pairs t delta ↔
    (s1 = s2 ∧ 0 < delta
     ∧ ∃ a b, a ≠ b ∧ (a, s1) ∈ t ∧ (b, s1) ∈ t ∧ p = pair_name a b)
    ∨ (∃ a b, a ≠ b ∧ (a, s3) ∈ t ∧ (b, s3) ∈ t ∧ p = pair_name a b).
Proof.
  intros Hnd Hdelta Hs.
  rewrite (elem_of_identify_tie_pairs _ _ _ _ _ _ _ _ _ _ Hnd Hs).
  pose proof (sorted_by_score_sorted t) as Hsorted.
  assert (NoDup ((sorted_by_score t).*1)) as Hnd'.
  { by rewrite sorted_by_score_Permutation. }
  assert (∀ e, e ∈ sorted_by_score t ↔ e ∈ t) as Hin.
  { intros e. by rewrite sorted_by_score_Permutation. }
  revert Hsorted Hnd' Hin. rewrite Hs. intros Hsorted Hnd' Hin.
  apply sorted_top3_inv in Hsorted as (H21 & H32 & Hrest).
  simpl in Hnd'.
  apply NoDup_cons in Hnd' as [Hc1 Hnd']. apply NoDup_cons in Hnd' as [Hc2 _].
  rewrite !not_elem_of_cons in Hc1, Hc2.
  assert ((c1, s1) ∈ t) as Hi1 by (apply Hin; set_solver).
  assert ((c2, s2) ∈ t) as Hi2 by (apply Hin; set_solver).
  assert ((c3, s3) ∈ t) as Hi3 by (apply Hin; set_solver).
  split.
  - intros [[Hlt ->]|[[Hlt ->]|Hex]].
    + left. assert (s1 = s2) as -> by lia.
      split; [done|]. split; [lia|]. exists c1, c2. naive_solver.
    + right. assert (s2 = s3) as -> by lia. exists c2, c3. naive_solver.
    + by right.
  - intros [(-> & Hpos & a & b & Hne & Ha & Hb & ->)|Hex]; [|by auto].
    destruct (decide (s3 = s2)) as [->|Hs3].
    { right. right. by exists a, b. }
    left. split; [lia|].
    assert (∀ c, (c, s2) ∈ t → c = c1 ∨ c = c2) as Htop.
    { intros c Hc. apply Hin in Hc.
      rewrite !elem_of_cons in Hc.
      destruct Hc as [?|[?|[?|Hc]]]; simplify_eq; auto.
      apply Hrest in Hc. lia. }
    destruct (Htop _ Ha) as [->| ->], (Htop _ Hb) as [->| ->]; try done.
    apply pair_name_comm.
Qed.

(** **** C3 *)

(** C3, as amended: for [delta <= 1], two tallies holding the same
    category-to-score associations in a different key order give the same
    set of pairs. *)
Theorem identify_tie_pairs_key_order t1 t2 delta :
  NoDup (t1.*1) → t1 ≡ₚ t2 → delta ≤ 1 →
  identify_tie_pairs t1 delta = identify_tie_pairs t2 delta.
Proof.
  intros Hnd1 Hp Hdelta.
  assert (NoDup (t2.*1)) as Hnd2 by by rewrite <-Hp.
  destruct (Nat.lt_ge_cases (length t1) 3) as [Hlen|Hlen].
  { rewrite !identify_tie_pairs_short; [done|by rewrite <-Hp|done]. }
  destruct (sorted_by_score_top3 t1 Hlen)
    as (c1 & s1 & c2 & s2 & c3 & s3 & r1 & Hs1).
  pose proof (sorted_scores_Permutation _ _ Hp) as Hsc.
  rewrite Hs1 in Hsc.
  destruct (sorted_by_score t2)
    as [|[d1 ?] [|[d2 ?] [|[d3 ?] r2]]] eqn:Hs2; simplify_eq/=.
  apply set_eq. intros p.
  rewrite (elem_of_identify_tie_pairs_small t1 _ _ _ _ _ _ _ _ _ Hnd1 Hdelta Hs1).
  rewrite (elem_of_identify_tie_pairs_small t2 _ _ _ _ _ _ _ _ _ Hnd2 Hdelta Hs2).
  by setoid_rewrite Hp.
Qed.

Lemma NoDup_RIASEC : NoDup RIASEC.
Proof. compute_decide. Qed.

Lemma tally_RIA_keys : NoDup (tally_RIA.*1).
Proof. compute_decide. Qed.

Lemma tally_RIA_RAI : tally_RIA ≡ₚ tally_RAI.
Proof. unfold tally_RIA, tally_RAI. apply perm_skip, perm_swap. Qed.

(** C3, as stated, fails: with [delta = 2] the pair formed with the top
    category depends on which of the two categories tied for second place
    comes first in the mapping. *)
Lemma identify_tie_pairs_key_order_counterexample :
  ¬ (∀ t1 t2 delta, NoDup (t1.*1) → t1 ≡ₚ t2 →
       identify_tie_pairs t1 delta = identify_tie_pairs t2 delta).
Proof.
  intros H. specialize (H tally_RIA tally_RAI 2 tally_RIA_keys tally_RIA_RAI).
  assert ("I-R" ∈ identify_tie_pairs tally_RIA 2) as Hin by by vm_compute.
  rewrite H in Hin. by vm_compute in Hin.
Qed.

Lemma identify_tie_pairs_key_order_witness :
  identify_tie_pairs tally_RIA 1 = identify_tie_pairs tally_RAI 1.
Proof.
  apply (identify_tie_pairs_key_order tally_RIA tally_RAI 1).
  - exact tally_RIA_keys.
  - exact tally_RIA_RAI.
  - lia.
Defined.

(** ** Scenarios *)

(** **** C8 *)

(** C8: on the tally [{R:5, I:5, A:4, S:2, E:1, C:0}] with [delta = 1] the
    pairs to tie-break are exactly [{"I-R"}], and the resolved code is
    ["IRA"]. *)
Theorem scenario_R5_I5_A4 :
  identify_tie_pairs tally_scenario 1 = {[ "I-R" ]}
  ∧ resolve_riasec_code tally_scenario = "IRA".
Proof. split; vm_compute; reflexivity. Qed.

(** **** C9 *)


(** **** C10 *)




(** ** The resolver *)

Lemma string_ltb_false_le x y : String.ltb y x = false ↔ String.le x y.
Proof.
  unfold String.le, String.leb, String.ltb.
  rewrite (String.compare_antisym x y).
  destruct (String.compare y x); simpl; intuition discriminate.
Qed.

Lemma not_after_resolve x y : not_after resolve_ltb x y ↔ rank_le x y.
Proof.
  unfold not_after, resolve_ltb, Py.tuple_ltb, resolve_key, rank_le. simpl.
  rewrite <-string_ltb_false_le.
  destruct (Z.eqb_spec (- y.2) (- x.2)).
  - split; [intros; right; split; [lia|done]|]. intros [?|[_ ?]]; [lia|done].
  - rewrite Z.ltb_ge. split; [intros; left; lia|]. intros [?|[? _]]; lia.
Qed.

Global Instance rank_le_trans : Transitive rank_le.
Proof.
  intros x y z [?|[Hxy Hl1]] [?|[Hyz Hl2]]; unfold rank_le;
    [left; lia..|].
  right. split; [lia|]. by trans (y.1).
Qed.

Global Instance rank_le_antisym : AntiSymm (=) rank_le.
Proof.
  intros [c1 s1] [c2 s2] [?|[? Hl1]] [?|[? Hl2]]; simpl in *; try lia.
  subst. f_equal. by apply (anti_symm String.le).
Qed.

Lemma resolve_ltb_asym x y : resolve_ltb x y = true → resolve_ltb y x = false.
Proof.
  unfold resolve_ltb, Py.tuple_ltb, resolve_key. simpl.
  destruct (Z.eqb_spec (- x.2) (- y.2)), (Z.eqb_spec (- y.2) (- x.2));
    try lia.
  apply string_ltb_asym.
Qed.

Lemma resolve_sorted t : StronglySorted rank_le (Py.sorted resolve_ltb t).
Proof.
  apply (StronglySorted_mono (not_after resolve_ltb)).
  { intros x y. apply not_after_resolve. }
  apply sorted_StronglySorted.
  - apply resolve_ltb_asym.
  - intros x y z. rewrite !not_after_resolve. apply rank_le_trans.
Qed.

Lemma dict_value_unique (t : list (string * Z)) c s s' :
  NoDup (t.*1) → (c, s) ∈ t → (c, s') ∈ t → s = s'.
Proof.
  induction t as [|[c0 s0] t IH]; simpl; intros Hnd H1 H2.
  { by apply elem_of_nil in H1. }
  apply NoDup_cons in Hnd as [Hc0 Hnd].
  apply elem_of_cons in H1 as [?|H1], H2 as [?|H2]; simplify_eq; auto.
  - destruct Hc0. by apply (list_elem_of_fmap_2 fst) in H2.
  - destruct Hc0. by apply (list_elem_of_fmap_2 fst) in H1.
Qed.

Lemma rank_le_refl x : rank_le x x.
Proof. right. split; [done|]. apply (reflexivity (R:=String.le)). Qed.

Lemma string_ltb_not_le a b : String.ltb a b = true → ¬ String.le b a.
Proof. intros Hlt Hle. apply string_ltb_false_le in Hle. congruence. Qed.

(** With exactly two categories [a < b] on the highest score, the sorted
    list starts with [a], then [b]. *)
Lemma resolve_two_way_tie t a b s :
  NoDup (t.*1) →
  (a, s) ∈ t → (b, s) ∈ t → String.ltb a b = true →
  (∀ c s', (c, s') ∈ t → c ≠ a → c ≠ b → s' < s) →
  ∃ rest, Py.sorted resolve_ltb t = (a, s) :: (b, s) :: rest.
Proof.
  intros Hnd Ha Hb Hab Hlow.
  pose proof (resolve_sorted t) as Hs.
  pose proof (sorted_Permutation resolve_ltb t) as Hp.
  assert (a ≠ b) as Hne.
  { intros ->. pose proof (string_ltb_asym _ _ Hab). congruence. }
  assert (∀ c s', (c, s') ∈ Py.sorted resolve_ltb t →
            s' < s ∨ (s' = s ∧ (c = a ∨ c = b))) as Hcase.
  { intros c s' Hc. rewrite Hp in Hc.
    destruct (decide (c = a)) as [->|?];
      [right; split; [by eapply dict_value_unique|by left]|].
    destruct (decide (c = b)) as [->|?];
      [right; split; [by eapply dict_value_unique|by right]|].
    left. by eapply Hlow. }
  rewrite <-Hp in Hnd, Ha, Hb. clear Hp Hlow.
  destruct (Py.sorted resolve_ltb t) as [|[c1 s1] [|[c2 s2] rest]].
  { by apply elem_of_nil in Ha. }
  { apply list_elem_of_singleton in Ha, Hb. congruence. }
  apply StronglySorted_inv in Hs as [Hs H1].
  apply StronglySorted_inv in Hs as [_ H2].
  rewrite Forall_forall in H1, H2.
  simpl in Hnd. apply NoDup_cons in Hnd as [Hc1 Hnd].
  assert (∀ y, y ∈ (c1, s1) :: (c2, s2) :: rest → rank_le (c1, s1) y) as Hmax.
  { intros y [->|Hy]%elem_of_cons; [apply rank_le_refl|by apply H1]. }
  assert (c1 = a ∧ s1 = s) as [-> ->].
  { destruct (Hcase c1 s1) as [Hlt|[-> [->| ->]]]; [set_solver| | |].
    - destruct (Hmax _ Ha) as [?|[? _]]; simpl in *; lia.
    - done.
    - destruct (Hmax _ Ha) as [?|[_ Hle]]; simpl in *; [lia|].
      by apply string_ltb_not_le in Hle. }
  apply elem_of_cons in Hb as [?|Hb]; [congruence|].
  assert (rank_le (c2, s2) (b, s)) as Hr.
  { apply elem_of_cons in Hb as [<-|Hb]; [apply rank_le_refl|by apply H2]. }
  assert (c2 ≠ a) as Hc2 by (rewrite not_elem_of_cons in Hc1; naive_solver).
  destruct (Hcase c2 s2) as [Hlt|[-> [->| ->]]]; [set_solver| | |].
  - destruct Hr as [?|[? _]]; simpl in *; lia.
  - done.
  - by exists rest.
Qed.

(** **** C4 *)

(** C4: the categories can be sorted by descending score with ascending
    letter as tie-break; [resolve_riasec_code] is the concatenation of the
    first three letters of the tally sorted that way; and when exactly two
    categories share the highest score, the sorted list starts with the
    alphabetically smaller one followed by the other, so that the code
    starts with these two letters in that order. *)
Theorem resolve_riasec_code_correct t :
  NoDup (t.*1) →
  (∃ ordered, ordered ≡ₚ t ∧ StronglySorted rank_le ordered)
  ∧ (∀ ordered, ordered ≡ₚ t → StronglySorted rank_le ordered →
       resolve_riasec_code t = Py.join ((take 3 ordered).*1))
  ∧ (∀ a b s,
       (a, s) ∈ t → (b, s) ∈ t → String.ltb a b = true →
       (∀ c s', (c, s') ∈ t → c ≠ a → c ≠ b → s' < s) →
       ∃ rest, Py.sorted resolve_ltb t = (a, s) :: (b, s) :: rest
               ∧ resolve_riasec_code t = Py.join (a :: b :: (take 1 rest).*1)).
Proof.
  intros Hnd. split; [|split].
  - exists (Py.sorted resolve_ltb t).
    split; [apply sorted_Permutation|apply resolve_sorted].
  - intros ordered Hp Hs. unfold resolve_riasec_code.
    f_equal. f_equal. f_equal.
    apply (StronglySorted_unique rank_le);
      [apply resolve_sorted|done|].
    by rewrite sorted_Permutation.
  - intros a b s Ha Hb Hab Hlow.
    destruct (resolve_two_way_tie t a b s) as [rest Hrest]; [done..|].
    exists rest. split; [done|].
    unfold resolve_riasec_code. by rewrite Hrest.
Qed.

Lemma resolve_riasec_code_correct_witness :
  resolve_riasec_code tally_scenario = "IRA".
Proof.
  destruct (resolve_riasec_code_correct tally_scenario) as (_ & _ & H).
  { compute_decide. }
  destruct (H "I" "R" 5) as (rest & Hrest & Hcode).
  - unfold tally_scenario. compute_decide.
  - unfold tally_scenario. compute_decide.
  - reflexivity.
  - intros c s' Hc Hna Hnb. unfold tally_scenario in Hc.
    rewrite !elem_of_cons in Hc.
    destruct Hc as [?|[?|[?|[?|[?|[?|Hc]]]]]]; simplify_eq; try lia.
    by apply elem_of_nil in Hc.
  - reflexivity.
Defined.

(** ** Dictionaries and counters *)

Lemma dict_add_keys k n d : (Py.dict_add k n d).*1 = d.*1.
Proof.
  unfold Py.dict_add. induction d as [|e d IH]; csimpl; [done|].
  rewrite IH. by case_decide.
Qed.

Lemma dict_add_absent k n d : k ∉ d.*1 → Py.dict_add k n d = d.
Proof.
  unfold Py.dict_add. induction d as [|e d IH]; csimpl; [done|].
  rewrite not_elem_of_cons. intros [Hne Hk].
  rewrite IH by done. by rewrite decide_False by done.
Qed.

Lemma dict_add_sum k n d :
  NoDup (d.*1) → k ∈ d.*1 →
  sum_scores (Py.dict_add k n d).*2 = sum_scores (d.*2) + n.
Proof.
  induction d as [|[k' v] d IH]; csimpl; intros Hnd Hk.
  { by apply elem_of_nil in Hk. }
  apply NoDup_cons in Hnd as [Hk' Hnd].
  fold (Py.dict_add k n d). case_decide as Heq; simpl in *.
  - subst k'. rewrite dict_add_absent by done. lia.
  - apply elem_of_cons in Hk as [?|Hk]; [congruence|].
    rewrite IH by done. lia.
Qed.

Lemma dict_add_nonneg k n d :
  0 ≤ n → Forall (λ e, 0 ≤ e.2) d → Forall (λ e, 0 ≤ e.2) (Py.dict_add k n d).
Proof.
  intros Hn Hd. unfold Py.dict_add. apply Forall_fmap.
  eapply Forall_impl; [exact Hd|].
  intros e He. simpl in *. case_decide; simpl; lia.
Qed.

Lemma counter_add_nonneg k n (c : gmap string Z) :
  0 ≤ n → map_Forall (λ _ v, 0 ≤ v) c →
  map_Forall (λ _ v, 0 ≤ v) (Py.counter_add k n c).
Proof.
  intros Hn Hc. unfold Py.counter_add, Py.counter_get.
  apply map_Forall_insert_2; [|done].
  destruct (c !! k) as [v|] eqn:Hv; simpl; [|lia].
  apply Hc in Hv. lia.
Qed.

Lemma foldl_counter_add_nonneg (f : string → Z) ks (c : gmap string Z) :
  (∀ k, k ∈ ks → 0 ≤ f k) → map_Forall (λ _ v, 0 ≤ v) c →
  map_Forall (λ _ v, 0 ≤ v) (foldl (λ c k, Py.counter_add k (f k) c) c ks).
Proof.
  revert c. induction ks as [|k ks IH]; intros c Hf Hc; simpl; [done|].
  apply IH; [intros; apply Hf; by right|].
  apply counter_add_nonneg; [apply Hf; by left|done].
Qed.

(** Adding one weight under each of distinct keys. *)
Lemma lookup_foldl_counter_add n ks (c : gmap string Z) a :
  NoDup ks →
  (a ∈ ks →
   foldl (λ c k, Py.counter_add k n c) c ks !! a = Some (Py.counter_get c a + n))
  ∧ (a ∉ ks → foldl (λ c k, Py.counter_add k n c) c ks !! a = c !! a).
Proof.
  intros Hnd. revert c. induction Hnd as [|k ks Hk Hnd IH]; intros c; simpl.
  { split; [by intros ?%elem_of_nil|done]. }
  destruct (IH (Py.counter_add k n c)) as [IH1 IH2]. split.
  - intros [->|Ha]%elem_of_cons.
    + rewrite IH2 by done. unfold Py.counter_add. by rewrite lookup_insert_eq.
    + rewrite IH1 by done. unfold Py.counter_add at 1, Py.counter_get at 1.
      rewrite lookup_insert_ne; [done|]. by intros ->.
  - intros [Hne Ha]%not_elem_of_cons. rewrite IH2 by done.
    unfold Py.counter_add. by rewrite lookup_insert_ne.
Qed.

(** ** The aptitude loop *)

Lemma OLD_TO_NEW_APT_MAP_NoDup old_key new_keys :
  OLD_TO_NEW_APT_MAP !! old_key = Some new_keys → NoDup new_keys.
Proof.
  intros Hk. apply elem_of_list_to_map_2 in Hk.
  repeat (apply elem_of_cons in Hk as [Hk|Hk];
          [injection Hk as -> ->; apply NoDup_singleton|]).
  by apply elem_of_nil in Hk.
Qed.

Lemma add_aptitude_nonneg (c : gmap string Z) item :
  0 ≤ item.2 → map_Forall (λ _ v, 0 ≤ v) c →
  map_Forall (λ _ v, 0 ≤ v) (add_aptitude c item).
Proof.
  destruct item as [old_key score]. simpl. intros Hs Hc.
  destruct (OLD_TO_NEW_APT_MAP !! old_key) as [new_keys|].
  - by apply (foldl_counter_add_nonneg (λ _, score)).
  - case_bool_decide; [by apply counter_add_nonneg|done].
Qed.

Lemma foldl_add_aptitude_nonneg (c : gmap string Z) items :
  Forall (λ item, 0 ≤ item.2) items → map_Forall (λ _ v, 0 ≤ v) c →
  map_Forall (λ _ v, 0 ≤ v) (foldl add_aptitude c items).
Proof.
  intros Hitems. revert c.
  induction Hitems as [|item items Hi _ IH]; intros c Hc; simpl; [done|].
  by apply IH, add_aptitude_nonneg.
Qed.

(** ** Text enrichment *)

Lemma enrich_from_text_nonneg `{PyLib} text :
  map_Forall (λ _ v, 0 ≤ v) (enrich_from_text text).
Proof.
  unfold enrich_from_text. case_decide; [apply map_Forall_empty|].
  generalize (py_lower text) as txt. intros txt.
  generalize KEYWORD_TO_APTS as table.
  assert (map_Forall (λ _ v, 0 ≤ v) (∅ : gmap string Z)) as Hc
    by apply map_Forall_empty.
  revert Hc. generalize (∅ : gmap string Z) as c.
  intros c Hc table. revert c Hc.
  induction table as [|[patt apt_list] table IH]; intros c Hc; simpl; [done|].
  apply IH. destruct (re_search patt txt); [|done].
  by apply (foldl_counter_add_nonneg (λ _, 1)).
Qed.

Lemma add_text_boosts_nonneg `{PyLib} (c : gmap string Z) text_field :
  map_Forall (λ _ v, 0 ≤ v) c →
  map_Forall (λ _ v, 0 ≤ v) (add_text_boosts c text_field).
Proof.
  intros Hc. destruct text_field as [text|]; simpl; [|done].
  pose proof (enrich_from_text_nonneg text) as Hb.
  apply map_Forall_to_list in Hb.
  revert c Hc. induction Hb as [|[k v] l Hv _ IH]; intros c Hc; simpl; [done|].
  by apply IH, counter_add_nonneg.
Qed.

(** ** The loop body of [calculate_scores] *)

Lemma find_question_elem_of bank qnum question :
  find_question bank qnum = Some question → question ∈ bank.
Proof.
  intros Hq. apply find_some in Hq as [Hq _]. by apply list_elem_of_In.
Qed.

Lemma chosen_option_inv `{PyLib, QuestionBanks} answer question option :
  chosen_option answer = Some (question, option) →
  question ∈ QUESTIONS ++ TIE_BREAKER_QUESTIONS
  ∧ question_options question !! answer.2 = Some option.
Proof.
  destruct answer as [qnum_key selected]. unfold chosen_option. simpl.
  destruct (py_int qnum_key) as [qnum|]; [|done].
  destruct (lookup_question qnum) as [q|] eqn:Hq; [|done].
  destruct (question_options q !! selected) as [o|] eqn:Ho; [|done].
  intros [= <- <-]. split; [|done].
  unfold lookup_question in Hq. apply elem_of_app.
  destruct (_ <=? _); [left|right]; by eapply find_question_elem_of.
Qed.

Lemma count_riasec_keys option riasec_scores :
  (count_riasec option riasec_scores).*1 = riasec_scores.*1.
Proof.
  unfold count_riasec. destruct (o_riasec option); [|done].
  destruct (Py.dict_mem _ _); [apply dict_add_keys|done].
Qed.

Lemma count_riasec_nonneg option riasec_scores :
  Forall (λ e, 0 ≤ e.2) riasec_scores →
  Forall (λ e, 0 ≤ e.2) (count_riasec option riasec_scores).
Proof.
  intros Hr. unfold count_riasec. destruct (o_riasec option); [|done].
  destruct (Py.dict_mem _ _); [by apply dict_add_nonneg|done].
Qed.

Lemma count_riasec_sum option riasec_scores :
  riasec_scores.*1 = RIASEC →
  sum_scores (count_riasec option riasec_scores).*2 =
  sum_scores (riasec_scores.*2)
  + match o_riasec option with
    | Some code => if bool_decide (code ∈ RIASEC) then 1 else 0
    | None => 0
    end.
Proof.
  intros Hkeys. unfold count_riasec, Py.dict_mem.
  destruct (o_riasec option) as [code|]; [|lia].
  rewrite Hkeys. case_bool_decide as Hc; [|lia].
  apply dict_add_sum; rewrite Hkeys; [|done].
  compute_decide.
Qed.

Lemma score_answer_skip `{PyLib, QuestionBanks} use scores answer :
  chosen_option answer = None → score_answer use scores answer = scores.
Proof. intros Hc. unfold score_answer. rewrite Hc. by destruct scores. Qed.

Lemma calculate_scores_snoc `{PyLib, QuestionBanks} use answers answer :
  calculate_scores use (answers ++ [answer]) =
  score_answer use (calculate_scores use answers) answer.
Proof. unfold calculate_scores. by rewrite foldl_app. Qed.

(** The lookup of the loop body finds the question the answer key
    resolves to. *)
Lemma find_question_filter bank qnum :
  find_question bank qnum = head (filter (λ q, q_number q = qnum) bank).
Proof.
  unfold find_question. induction bank as [|q bank IH]; [done|].
  rewrite filter_cons. cbn [find].
  destruct (Z.eqb_spec (q_number q) qnum) as [Heq|Hne].
  - by rewrite decide_True.
  - by rewrite decide_False.
Qed.

Lemma lookup_question_selected `{QuestionBanks} qnum :
  lookup_question qnum =
  head (filter (λ q, q_number q = qnum) (selected_bank qnum)).
Proof.
  unfold lookup_question, selected_bank. cbv zeta.
  destruct (Z.leb_spec qnum (Z.of_nat (length QUESTIONS)));
    [rewrite decide_True by done|rewrite decide_False by lia];
    apply find_question_filter.
Qed.

Lemma chosen_option_answered `{PyLib, QuestionBanks} answer :
  chosen_option answer = answered_choice answer.
Proof.
  destruct answer as [qnum_key selected].
  unfold chosen_option, answered_choice, resolved_question. cbn [fst snd].
  destruct (py_int qnum_key) as [qnum|]; [|done]. cbn [mbind option_bind].
  rewrite lookup_question_selected.
  destruct (head _) as [question|]; [|done]. cbn [mbind option_bind].
  unfold question_options.
  destruct (q_options question) as [options|]; cbn [default mbind option_bind].
  - unfold id. by destruct (options !! selected).
  - by rewrite lookup_empty.
Qed.

Lemma answered_choice_inv `{PyLib, QuestionBanks} answer question option :
  answered_choice answer = Some (question, option) →
  question ∈ QUESTIONS ++ TIE_BREAKER_QUESTIONS
  ∧ ∃ options, q_options question = Some options
               ∧ options !! answer.2 = Some option.
Proof.
  unfold answered_choice, resolved_question.
  destruct (py_int answer.1) as [qnum|]; [|done]. cbn [mbind option_bind].
  destruct (head _) as [q|] eqn:Hq; [|done]. cbn [mbind option_bind].
  destruct (q_options q) as [options|] eqn:Hopts; [|done].
  cbn [mbind option_bind].
  destruct (options !! answer.2) as [o|] eqn:Ho; [|done].
  intros [= <- <-]. split; [|by exists options].
  apply head_Some_elem_of, list_elem_of_filter in Hq as [_ Hq].
  unfold selected_bank in Hq. apply elem_of_app.
  case_decide; [by left|by right].
Qed.

(** The RIASEC tally after one more answer. *)
Lemma score_answer_riasec `{PyLib, QuestionBanks} use scores answer :
  scores.1.*1 = RIASEC →
  Forall (λ e, 0 ≤ e.2) scores.1 →
  let scores' := score_answer use scores answer in
  scores'.1.*1 = RIASEC
  ∧ Forall (λ e, 0 ≤ e.2) scores'.1
  ∧ sum_scores (scores'.1.*2) =
    sum_scores (scores.1.*2) + (if carries_riasec answer then 1 else 0).
Proof.
  intros Hkeys Hr. destruct scores as [riasec_scores aptitude_scores].
  unfold score_answer, carries_riasec. rewrite <- chosen_option_answered.
  cbn [fst snd] in *.
  destruct (chosen_option answer) as [[question option]|]; cbn [fst snd];
    [|repeat split; [done..|lia]].
  split; [by rewrite count_riasec_keys|].
  split; [by apply count_riasec_nonneg|].
  rewrite count_riasec_sum by done.
  destruct (o_riasec option); [by case_bool_decide|done].
Qed.

(** The aptitude tally after one more answer, when the banks hold no
    negative weight. *)
Lemma score_answer_aptitudes_nonneg `{PyLib, QuestionBanks}
    use scores answer :
  weights_nonneg →
  map_Forall (λ _ v, 0 ≤ v) scores.2 →
  map_Forall (λ _ v, 0 ≤ v) (score_answer use scores answer).2.
Proof.
  intros Hw Ha. destruct scores as [riasec_scores aptitude_scores].
  unfold score_answer. cbn [snd] in Ha.
  destruct (chosen_option answer) as [[question option]|] eqn:Hc;
    cbn [snd]; [|done].
  rewrite chosen_option_answered in Hc.
  apply answered_choice_inv in Hc as (Hq & options & Hopts & Ho).
  assert (map_Forall (λ _ v, 0 ≤ v)
            (foldl add_aptitude aptitude_scores (option_apts option))) as Ha'.
  { apply foldl_add_aptitude_nonneg; [|done]. unfold option_apts.
    destruct (o_aptitudes option) as [entries|] eqn:He; [|done].
    by eapply Hw. }
  destruct use; [|done]. cbn [foldl].
  by do 3 apply add_text_boosts_nonneg.
Qed.

(** **** C2 *)

(** C2, as amended: for every record of answers, the RIASEC tally returned
    by [calculate_scores] has the six categories as keys, each of its
    values is non-negative, and its values add up to the number of answers
    whose selected option carried a RIASEC code; the values of the
    aptitude tally are non-negative provided no option of the banks weighs
    an aptitude negatively. *)
Theorem calculate_scores_tallies `{PyLib, QuestionBanks} use answers :
  ((calculate_scores use answers).1.*1 = RIASEC
   ∧ Forall (λ e, 0 ≤ e.2) (calculate_scores use answers).1
   ∧ sum_scores ((calculate_scores use answers).1.*2) =
     Z.of_nat (riasec_answers answers))
  ∧ (weights_nonneg →
     map_Forall (λ _ v, 0 ≤ v) (calculate_scores use answers).2).
Proof.
  induction answers as [|answer answers IH] using rev_ind.
  { unfold calculate_scores, riasec_answers. cbn [foldl fst snd].
    split; [|intros _; compute_decide].
    split; [reflexivity|]. split; [compute_decide|reflexivity]. }
  destruct IH as ((Hkeys & Hr & Hsum) & Ha).
  rewrite calculate_scores_snoc. split.
  - destruct (score_answer_riasec use (calculate_scores use answers) answer)
      as (Hkeys' & Hr' & Hsum'); [done..|].
    repeat split; [done..|].
    rewrite Hsum', Hsum. unfold riasec_answers.
    rewrite filter_app, length_app, filter_cons, filter_nil.
    destruct (carries_riasec answer).
    + rewrite decide_True by done. simpl length. lia.
    + rewrite decide_False by done. simpl length. lia.
  - intros Hw. apply score_answer_aptitudes_nonneg; [done|by apply Ha].
Qed.

(** ** Labels that are no strings *)

Lemma calculate_scores_json_raised `{PyLib, QuestionBanks} use answers :
  foldl (λ scores answer,
           match scores with
           | returned scores => score_answer_json use scores answer
           | raised_TypeError => raised_TypeError
           end) raised_TypeError answers = raised_TypeError.
Proof. by induction answers. Qed.

Lemma score_answer_json_string `{PyLib, QuestionBanks}
    use scores qnum_key label :
  score_answer_json use scores (qnum_key, Jstring label) =
  returned (score_answer use scores (qnum_key, label)).
Proof.
  destruct scores as [riasec_scores aptitude_scores].
  unfold score_answer_json, score_answer, chosen_option, dict_lookup.
  destruct (py_int qnum_key) as [qnum|]; [|done].
  destruct (lookup_question qnum) as [question|]; [|done].
  by destruct (question_options question !! label).
Qed.

(** **** C5 *)

(** C5: an entry whose label is not among the options of its question is
    not always skipped.  The record [{'1': 'B', '2': ['A']}] holds a list
    as the label of question 2, which the bank knows: the membership test
    hashes the list, and [calculate_scores] raises [TypeError] instead of
    skipping the entry, while the record without the entry is scored. *)
Theorem calculate_scores_list_label_raises :
  @calculate_scores_json demo_lib demo_banks false
    [("1", Jstring "B"); ("2", Jlist [Jstring "A"])] = raised_TypeError
  ∧ @calculate_scores_json demo_lib demo_banks false [("1", Jstring "B")]
    = returned (@calculate_scores demo_lib demo_banks false [("1", "B")]).
Proof. split; vm_compute; reflexivity. Qed.

(** ** The aptitude tally, entry by entry *)

Lemma sum_of_nil {A} (f : A → Z) : sum_of f [] = 0.
Proof. reflexivity. Qed.

Lemma sum_of_cons {A} (f : A → Z) x l : sum_of f (x :: l) = f x + sum_of f l.
Proof. reflexivity. Qed.

Lemma sum_of_app {A} (f : A → Z) l1 l2 :
  sum_of f (l1 ++ l2) = sum_of f l1 + sum_of f l2.
Proof.
  induction l1 as [|x l1 IH]; [done|].
  rewrite <- app_comm_cons, !sum_of_cons, IH. lia.
Qed.

Lemma counter_get_counter_add k n (c : gmap string Z) a :
  Py.counter_get (Py.counter_add k n c) a =
  Py.counter_get c a + (if decide (a = k) then n else 0).
Proof.
  unfold Py.counter_add. case_decide as Ha.
  - subst a. unfold Py.counter_get at 1. by rewrite lookup_insert_eq.
  - unfold Py.counter_get at 1. rewrite lookup_insert_ne by done.
    fold (Py.counter_get c a). lia.
Qed.

Lemma counter_get_foldl_add n ks (c : gmap string Z) a :
  NoDup ks →
  Py.counter_get (foldl (λ c k, Py.counter_add k n c) c ks) a =
  Py.counter_get c a + (if bool_decide (a ∈ ks) then n else 0).
Proof.
  intros Hnd. destruct (lookup_foldl_counter_add n ks c a Hnd) as [Hin Hout].
  unfold Py.counter_get at 1. case_bool_decide as Ha.
  - by rewrite Hin.
  - rewrite Hout by done. fold (Py.counter_get c a). lia.
Qed.

Lemma counter_get_add_aptitude (c : gmap string Z) entry a :
  Py.counter_get (add_aptitude c entry) a =
  Py.counter_get c a + entry_gain a entry.
Proof.
  destruct entry as [key weight].
  unfold entry_gain, aptitude_targets, add_aptitude. cbn [fst snd].
  destruct (OLD_TO_NEW_APT_MAP !! key) as [new_names|] eqn:Hk.
  - apply counter_get_foldl_add. by eapply OLD_TO_NEW_APT_MAP_NoDup.
  - destruct (bool_decide (key ∈ NEW_APTITUDES)).
    + rewrite counter_get_counter_add.
      destruct (decide (a = key)) as [->|Hne].
      * rewrite bool_decide_eq_true_2; [done|by left].
      * rewrite bool_decide_eq_false_2; [done|].
        by intros ?%list_elem_of_singleton.
    + rewrite bool_decide_eq_false_2; [lia|apply not_elem_of_nil].
Qed.

Lemma counter_get_foldl_add_aptitude (c : gmap string Z) entries a :
  Py.counter_get (foldl add_aptitude c entries) a =
  Py.counter_get c a + sum_of (entry_gain a) entries.
Proof.
  revert c. induction entries as [|entry entries IH]; intros c.
  - rewrite sum_of_nil. cbn [foldl]. lia.
  - cbn [foldl]. rewrite IH, counter_get_add_aptitude, sum_of_cons. lia.
Qed.

(** Adding the items of a dict, each key once. *)
Lemma counter_get_foldl_items (items : list (string * Z))
    (c : gmap string Z) a :
  NoDup (items.*1) →
  Py.counter_get (foldl (λ c '(k, v), Py.counter_add k v c) c items) a =
  Py.counter_get c a + Py.counter_get (list_to_map items) a.
Proof.
  revert c. induction items as [|[k v] items IH]; intros c Hnd.
  { cbn [foldl list_to_map foldr]. unfold Py.counter_get at 3.
    rewrite lookup_empty. cbn [default from_option]. lia. }
  rewrite fmap_cons in Hnd. apply NoDup_cons in Hnd as [Hk Hnd].
  cbn [foldl]. rewrite IH by done. rewrite counter_get_counter_add.
  rewrite list_to_map_cons.
  assert (Py.counter_get (<[k:=v]> (list_to_map items : gmap string Z)) a =
          Py.counter_get (list_to_map items) a
          + (if decide (a = k) then v else 0)) as ->.
  { unfold Py.counter_get. case_decide as Ha.
    - subst a. rewrite lookup_insert_eq.
      by rewrite (not_elem_of_list_to_map_1 items k Hk).
    - rewrite lookup_insert_ne by done. lia. }
  lia.
Qed.

Lemma counter_get_add_text_boosts `{PyLib} (c : gmap string Z) text_field a :
  Py.counter_get (add_text_boosts c text_field) a =
  Py.counter_get c a + text_gain a text_field.
Proof.
  destruct text_field as [text|]; unfold add_text_boosts, text_gain; [|lia].
  cbv zeta. rewrite counter_get_foldl_items by apply NoDup_fst_map_to_list.
  by rewrite list_to_map_to_list.
Qed.

Lemma counter_get_score_answer `{PyLib, QuestionBanks} use scores answer a :
  Py.counter_get (score_answer use scores answer).2 a =
  Py.counter_get scores.2 a + answer_gain use a answer.
Proof.
  destruct scores as [riasec_scores aptitude_scores].
  unfold score_answer, answer_gain. rewrite chosen_option_answered.
  destruct (answered_choice answer) as [[question option]|]; cbn [snd];
    [|lia].
  unfold option_apts. destruct use.
  - cbn [foldl].
    rewrite !counter_get_add_text_boosts, counter_get_foldl_add_aptitude.
    rewrite !sum_of_cons, sum_of_nil. lia.
  - rewrite counter_get_foldl_add_aptitude. lia.
Qed.

Lemma counter_get_aptitude_zero a : Py.counter_get aptitude_zero a = 0.
Proof.
  unfold Py.counter_get, aptitude_zero.
  destruct (_ !! a) as [v|] eqn:Hv; [|done].
  apply elem_of_list_to_map_2, list_elem_of_fmap in Hv as (a' & [= _ ->] & _).
  done.
Qed.

(** **** C7 *)

(** C7: one entry [(old_key, score)] of the chosen option's aptitude
    mapping.  A recognised legacy name adds the weight to each new name it
    maps to and to no other; otherwise a name of the current taxonomy
    receives the weight itself; otherwise the tally is left as it is.
    [calculate_scores] applies this to every entry of the aptitude mapping
    of every option an answer selects, and to nothing else but the text
    boosts: the value it returns for an aptitude is the sum, over the
    answers, of what each answer gains it. *)
Theorem add_aptitude_cases `{PyLib, QuestionBanks}
    (aptitude_scores : gmap string Z) old_key score :
  (∀ new_keys, OLD_TO_NEW_APT_MAP !! old_key = Some new_keys →
     ∀ a, (a ∈ new_keys →
           add_aptitude aptitude_scores (old_key, score) !! a =
           Some (Py.counter_get aptitude_scores a + score))
          ∧ (a ∉ new_keys →
             add_aptitude aptitude_scores (old_key, score) !! a =
             aptitude_scores !! a))
  ∧ (OLD_TO_NEW_APT_MAP !! old_key = None → old_key ∈ NEW_APTITUDES →
     add_aptitude aptitude_scores (old_key, score) =
     <[old_key := Py.counter_get aptitude_scores old_key + score]>
       aptitude_scores)
  ∧ (OLD_TO_NEW_APT_MAP !! old_key = None → old_key ∉ NEW_APTITUDES →
     add_aptitude aptitude_scores (old_key, score) = aptitude_scores)
  ∧ (∀ use answers a,
       Py.counter_get (calculate_scores use answers).2 a =
       sum_of (answer_gain use a) answers).
Proof.
  split; [|split; [|split]].
  - intros new_keys Hk a. simpl. rewrite Hk.
    apply lookup_foldl_counter_add. by eapply OLD_TO_NEW_APT_MAP_NoDup.
  - intros Hk Hnew. simpl. rewrite Hk. by rewrite bool_decide_eq_true_2.
  - intros Hk Hnew. simpl. rewrite Hk. by rewrite bool_decide_eq_false_2.
  - intros use answers a.
    induction answers as [|answer answers IH] using rev_ind.
    { apply counter_get_aptitude_zero. }
    rewrite calculate_scores_snoc, counter_get_score_answer, IH.
    rewrite sum_of_app, sum_of_cons, sum_of_nil. lia.
Qed.

(** ** Selecting the tie-breaker questions *)

Lemma filter_all {A} (P : A → Prop) `{∀ x, Decision (P x)} l :
  Forall P l → filter P l = l.
Proof.
  induction 1 as [|x l Hx _ IH]; [done|].
  by rewrite filter_cons_True, IH.
Qed.

Lemma filter_none {A} (P : A → Prop) `{∀ x, Decision (P x)} l :
  Forall (λ x, ¬ P x) l → filter P l = [].
Proof.
  induction 1 as [|x l Hx _ IH]; [done|].
  by rewrite filter_cons_False.
Qed.

Lemma questions_for_Forall p qs :
  Forall (λ q, q_pair q = Some p) (questions_for p qs).
Proof.
  apply Forall_forall. intros q Hq.
  by apply list_elem_of_filter in Hq as [? _].
Qed.

Lemma questions_for_take p p' n qs :
  questions_for p (take n (questions_for p' qs)) =
  if decide (p = p') then take n (questions_for p qs) else [].
Proof.
  assert (Forall (λ q, q_pair q = Some p') (take n (questions_for p' qs)))
    as Hall by apply Forall_take, questions_for_Forall.
  case_decide as Hp.
  - subst p'. by apply filter_all.
  - apply filter_none. eapply Forall_impl; [exact Hall|].
    simpl. intros q Hq. congruence.
Qed.

Lemma get_questions_for_pairs_from `{QuestionBanks}
    (pairs : list string) (already_asked : gset string)
    (acc : list Question) :
  foldl (λ new_qs pair,
           if bool_decide (pair ∈ already_asked) then new_qs else
           let matched :=
             filter (λ q, q_pair q = Some pair) TIE_BREAKER_QUESTIONS in
           match matched with
           | [] => new_qs
           | _ => new_qs ++ take 2 matched
           end) acc pairs =
  acc ++ (pairs ≫= λ p, if bool_decide (p ∈ already_asked) then []
                        else take 2 (questions_for p TIE_BREAKER_QUESTIONS)).
Proof.
  revert acc. induction pairs as [|p pairs IH]; intros acc.
  { simpl. by rewrite app_nil_r. }
  rewrite bind_cons, app_assoc. cbn [foldl]. rewrite IH. f_equal.
  case_bool_decide; [by rewrite app_nil_r|].
  unfold questions_for. cbv zeta.
  destruct (filter _ TIE_BREAKER_QUESTIONS); [|done].
  simpl. by rewrite app_nil_r.
Qed.

Lemma get_questions_for_pairs_bind `{QuestionBanks} pairs already_asked :
  get_questions_for_pairs pairs already_asked =
  pairs ≫= λ p, if bool_decide (p ∈ already_asked) then []
                else take 2 (questions_for p TIE_BREAKER_QUESTIONS).
Proof.
  apply (get_questions_for_pairs_from pairs already_asked []).
Qed.

Lemma questions_for_app p qs1 qs2 :
  questions_for p (qs1 ++ qs2) = questions_for p qs1 ++ questions_for p qs2.
Proof. apply filter_app. Qed.

Lemma questions_for_result `{QuestionBanks} pairs already_asked p :
  NoDup pairs →
  questions_for p (get_questions_for_pairs pairs already_asked) =
  if decide (p ∈ pairs ∧ p ∉ already_asked)
  then take 2 (questions_for p TIE_BREAKER_QUESTIONS) else [].
Proof.
  rewrite get_questions_for_pairs_bind.
  induction 1 as [|p' pairs Hp' Hnd IH].
  { rewrite decide_False; [done|]. intros [?%elem_of_nil _]. done. }
  rewrite bind_cons, questions_for_app, IH. clear IH.
  destruct (decide (p = p')) as [->|Hne].
  - rewrite (decide_False (P:=p' ∈ pairs ∧ _)) by naive_solver.
    rewrite app_nil_r. case_bool_decide.
    + rewrite decide_False by naive_solver. done.
    + rewrite decide_True by (split; [by left|done]).
      rewrite questions_for_take. by rewrite decide_True.
  - assert (questions_for p
              (if bool_decide (p' ∈ already_asked) then []
               else take 2 (questions_for p' TIE_BREAKER_QUESTIONS)) = [])
      as ->.
    { case_bool_decide; [done|].
      rewrite questions_for_take. by rewrite decide_False. }
    simpl. apply decide_ext. rewrite elem_of_cons. naive_solver.
Qed.

Lemma elem_of_get_questions_for_pairs `{QuestionBanks} pairs already_asked q :
  q ∈ get_questions_for_pairs pairs already_asked →
  ∃ p, q_pair q = Some p ∧ p ∈ pairs ∧ p ∉ already_asked
       ∧ q ∈ TIE_BREAKER_QUESTIONS.
Proof.
  rewrite get_questions_for_pairs_bind, list_elem_of_bind.
  intros (p & Hq & Hp). exists p.
  case_bool_decide; [by apply elem_of_nil in Hq|].
  apply subseteq_take in Hq. apply list_elem_of_filter in Hq as [??]. done.
Qed.

(** **** C6 *)

(** C6: whatever order the pairs are met in, the result holds no question
    of a pair that was already asked; for a requested pair not yet asked
    it holds exactly the first two questions of the tie-breaker bank whose
    [pair] field is that pair (all of them when there are fewer), hence at
    most two, and none when the bank has none; and every question of the
    result comes from the bank and bears a requested pair. *)
Theorem get_questions_for_pairs_correct `{QuestionBanks} pairs already_asked :
  NoDup pairs →
  let new_qs := get_questions_for_pairs pairs already_asked in
  (∀ q p, q ∈ new_qs → p ∈ already_asked → q_pair q ≠ Some p)
  ∧ (∀ p, p ∈ pairs → p ∉ already_asked →
       questions_for p new_qs =
       take 2 (questions_for p TIE_BREAKER_QUESTIONS))
  ∧ (∀ p, (length (questions_for p new_qs) ≤ 2)%nat)
  ∧ (∀ p, questions_for p TIE_BREAKER_QUESTIONS = [] →
       questions_for p new_qs = [])
  ∧ (∀ q, q ∈ new_qs →
       ∃ p, q_pair q = Some p ∧ p ∈ pairs ∧ q ∈ TIE_BREAKER_QUESTIONS).
Proof.
  intros Hnd new_qs. subst new_qs. repeat split.
  - intros q p Hq Hp Hpair.
    apply elem_of_get_questions_for_pairs in Hq as (p' & Hq & _ & Hp' & _).
    congruence.
  - intros p Hp Hnew. rewrite questions_for_result by done.
    by rewrite decide_True.
  - intros p. rewrite questions_for_result by done.
    case_decide; [rewrite length_take|simpl]; lia.
  - intros p Hnone. rewrite questions_for_result by done.
    rewrite Hnone. by case_decide.
  - intros q Hq.
    apply elem_of_get_questions_for_pairs in Hq as (p & ? & ? & _ & ?).
    by exists p.
Qed.

(** ** The definitions at work on the small installation *)

Lemma demo_question_options n a b p text options label option :
  q_options (demo_question n a b p text) = Some options →
  options !! label = Some option →
  option = a ∨ option = b.
Proof.
  unfold demo_question. cbn [q_options]. intros [= <-].
  rewrite !lookup_insert_Some, lookup_empty. naive_solver.
Qed.

Lemma demo_weights_nonneg : @weights_nonneg demo_banks.
Proof.
  intros question options label option entries Hq Hopts Ho He. simpl in Hq.
  repeat (apply elem_of_cons in Hq as [->|Hq];
          [destruct (demo_question_options _ _ _ _ _ _ _ _ Hopts Ho)
             as [-> | ->];
           injection He as <-; compute_decide|]).
  by apply elem_of_nil in Hq.
Qed.

Lemma calculate_scores_tallies_witness :
  sum_scores ((@calculate_scores demo_lib demo_banks true demo_answers).1.*2)
  = 3
  ∧ map_Forall (λ _ v, 0 ≤ v)
      (@calculate_scores demo_lib demo_banks true demo_answers).2.
Proof.
  destruct (@calculate_scores_tallies demo_lib demo_banks true demo_answers)
    as ((_ & _ & Hsum) & Ha).
  split.
  - rewrite Hsum. reflexivity.
  - apply Ha. exact demo_weights_nonneg.
Defined.

(** C2, as the specification states it, fails: the weights are added as
    the banks give them, and an option that weighs [Numerical] with [-3]
    leaves the aptitude tally at [-3]. *)
Lemma calculate_scores_tallies_counterexample :
  ¬ (∀ (lib : PyLib) (banks : QuestionBanks) use answers,
       (Forall (λ e, 0 ≤ e.2) (calculate_scores use answers).1
        ∧ map_Forall (λ _ v, 0 ≤ v) (calculate_scores use answers).2)
       ∧ sum_scores ((calculate_scores use answers).1.*2) =
         Z.of_nat (riasec_answers answers)).
Proof.
  intros Hclaim.
  destruct (Hclaim demo_lib negative_banks false [("1", "A")])
    as ((_ & Hneg) & _).
  assert ((@calculate_scores demo_lib negative_banks false [("1", "A")]).2
            !! "Numerical" = Some (-3)) as Hv by (vm_compute; reflexivity).
  apply Hneg in Hv. lia.
Qed.

Lemma add_aptitude_cases_witness :
  add_aptitude aptitude_zero ("Analytical", 2) !! "Logical Reasoning" = Some 2
  ∧ add_aptitude aptitude_zero ("Numerical", 1)
    = <["Numerical" := 1]> aptitude_zero
  ∧ add_aptitude aptitude_zero ("Memory", 3) = aptitude_zero
  ∧ Py.counter_get
      (@calculate_scores demo_lib demo_banks false demo_answers).2
      "Logical Reasoning" = 2.
Proof.
  split; [|split; [|split]].
  - destruct (@add_aptitude_cases demo_lib demo_banks
                aptitude_zero "Analytical" 2) as (H1 & _).
    destruct (H1 ["Logical Reasoning"] eq_refl "Logical Reasoning") as [H1' _].
    apply H1'. by left.
  - destruct (@add_aptitude_cases demo_lib demo_banks
                aptitude_zero "Numerical" 1) as (_ & H2 & _).
    apply H2; [reflexivity|]. compute_decide.
  - destruct (@add_aptitude_cases demo_lib demo_banks
                aptitude_zero "Memory" 3) as (_ & _ & H3 & _).
    apply H3; [reflexivity|]. compute_decide.
  - destruct (@add_aptitude_cases demo_lib demo_banks
                aptitude_zero "Memory" 3) as (_ & _ & _ & H4).
    rewrite H4. vm_compute. reflexivity.
Defined.

Lemma get_questions_for_pairs_correct_witness :
  q_number <$> questions_for "I-R"
    (@get_questions_for_pairs demo_banks ["A-I"; "I-R"; "C-E"] {["A-I"]})
  = [3; 5].
Proof.
  destruct (@get_questions_for_pairs_correct demo_banks
              ["A-I"; "I-R"; "C-E"] {["A-I"]}) as (_ & H2 & _).
  - compute_decide.
  - rewrite H2; [reflexivity| |].
    + compute_decide.
    + compute_decide.
Defined.


(** * Further properties *)

(** ** Pairs returned by [identify_tie_pairs] *)

(** Every pair returned names two distinct categories of the tally, the
    smaller letter first; nothing else is ever produced. *)
Theorem identify_tie_pairs_names_categories t delta p :
  NoDup (t.*1) →
  p ∈ identify_tie_pairs t delta →
  ∃ a b, a ∈ t.*1 ∧ b ∈ t.*1 ∧ a ≠ b ∧ p = pair_name a b.
Proof.
  intros Hnd Hp.
  destruct (Nat.lt_ge_cases (length t) 3) as [Hlen|Hlen].
  { rewrite identify_tie_pairs_short in Hp by done. by apply elem_of_empty in Hp. }
  destruct (sorted_by_score_top3 t Hlen)
    as (c1 & s1 & c2 & s2 & c3 & s3 & rest & Hs).
  assert (NoDup ((sorted_by_score t).*1)) as Hnd'.
  { by rewrite sorted_by_score_Permutation. }
  assert (∀ e, e ∈ sorted_by_score t → e.1 ∈ t.*1) as Hin.
  { intros e He. rewrite sorted_by_score_Permutation in He.
    by apply list_elem_of_fmap_2. }
  rewrite Hs in Hnd', Hin. simpl in Hnd'.
  apply NoDup_cons in Hnd' as [Hc1 Hnd']. apply NoDup_cons in Hnd' as [Hc2 _].
  rewrite !not_elem_of_cons in Hc1, Hc2.
  assert (c1 ∈ t.*1) as H1 by (apply (Hin (c1, s1)); set_solver).
  assert (c2 ∈ t.*1) as H2 by (apply (Hin (c2, s2)); set_solver).
  assert (c3 ∈ t.*1) as H3 by (apply (Hin (c3, s3)); set_solver).
  apply (elem_of_identify_tie_pairs _ _ _ _ _ _ _ _ _ _ Hnd Hs) in Hp.
  destruct Hp as [[_ ->]|[[_ ->]|(a & b & Hne & Ha & Hb & ->)]].
  - exists c1, c2. naive_solver.
  - exists c2, c3. naive_solver.
  - exists a, b. split; [by apply (list_elem_of_fmap_2 fst) in Ha|].
    split; [by apply (list_elem_of_fmap_2 fst) in Hb|done].
Qed.

Lemma identify_tie_pairs_names_categories_witness :
  ∃ a b, a ∈ tally_scenario.*1 ∧ b ∈ tally_scenario.*1 ∧ a ≠ b
         ∧ "I-R" = pair_name a b.
Proof.
  apply (identify_tie_pairs_names_categories tally_scenario 1 "I-R").
  - compute_decide.
  - vm_compute. reflexivity.
Defined.

(** A larger margin only adds pairs. *)
Theorem identify_tie_pairs_mono t delta delta' :
  NoDup (t.*1) → delta ≤ delta' →
  identify_tie_pairs t delta ⊆ identify_tie_pairs t delta'.
Proof.
  intros Hnd Hle p Hp.
  destruct (Nat.lt_ge_cases (length t) 3) as [Hlen|Hlen].
  { rewrite identify_tie_pairs_short in Hp by done. by apply elem_of_empty in Hp. }
  destruct (sorted_by_score_top3 t Hlen)
    as (c1 & s1 & c2 & s2 & c3 & s3 & rest & Hs).
  apply (elem_of_identify_tie_pairs _ _ _ _ _ _ _ _ _ _ Hnd Hs) in Hp.
  apply (elem_of_identify_tie_pairs _ _ _ _ _ _ _ _ _ _ Hnd Hs).
  destruct Hp as [[? ->]|[[? ->]|Hp]]; [left|right; left|right; right];
    (done || (split; [lia|done])).
Qed.

Lemma identify_tie_pairs_mono_witness :
  identify_tie_pairs tally_RIA 1 ⊆ identify_tie_pairs tally_RIA 2.
Proof.
  apply (identify_tie_pairs_mono tally_RIA 1 2); [exact tally_RIA_keys|lia].
Defined.

Lemma score_key_unique (t : list (string * Z)) a b s :
  NoDup (t.*2) → (a, s) ∈ t → (b, s) ∈ t → a = b.
Proof.
  induction t as [|[c0 s0] t IH]; simpl; intros Hnd H1 H2.
  { by apply elem_of_nil in H1. }
  apply NoDup_cons in Hnd as [Hs0 Hnd].
  apply elem_of_cons in H1 as [?|H1], H2 as [?|H2]; simplify_eq; auto.
  - destruct Hs0. by apply (list_elem_of_fmap_2 snd) in H2.
  - destruct Hs0. by apply (list_elem_of_fmap_2 snd) in H1.
Qed.

(** When all scores differ and the margin is at most 1 (the default),
    nothing is to be tie-broken. *)
Theorem identify_tie_pairs_distinct_scores t delta :
  NoDup (t.*1) → NoDup (t.*2) → delta ≤ 1 →
  identify_tie_pairs t delta = ∅.
Proof.
  intros Hnd Hsc Hdelta.
  destruct (Nat.lt_ge_cases (length t) 3) as [Hlen|Hlen].
  { by apply identify_tie_pairs_short. }
  destruct (sorted_by_score_top3 t Hlen)
    as (c1 & s1 & c2 & s2 & c3 & s3 & rest & Hs).
  pose proof (sorted_by_score_sorted t) as Hsorted.
  assert (NoDup ((sorted_by_score t).*2)) as Hsc'.
  { by rewrite sorted_by_score_Permutation. }
  rewrite Hs in Hsorted, Hsc'. simpl in Hsc'.
  apply sorted_top3_inv in Hsorted as (H21 & H32 & _).
  apply NoDup_cons in Hsc' as [Hn1 Hsc']. apply NoDup_cons in Hsc' as [Hn2 _].
  rewrite !not_elem_of_cons in Hn1, Hn2.
  apply set_eq. intros p. rewrite elem_of_empty.
  rewrite (elem_of_identify_tie_pairs _ _ _ _ _ _ _ _ _ _ Hnd Hs).
  split; [|done].
  intros [[? _]|[[? _]|(a & b & Hne & Ha & Hb & _)]]; [lia|lia|].
  apply Hne. by eapply score_key_unique.
Qed.

Lemma identify_tie_pairs_distinct_scores_witness :
  identify_tie_pairs [("R", 6); ("I", 5); ("A", 4); ("S", 2); ("E", 1); ("C", 0)] 1
  = ∅.
Proof.
  apply identify_tie_pairs_distinct_scores; [compute_decide..|lia].
Defined.

(** ** [needs_tie_breaker] *)

(** With fewer than three categories no round is ever needed.  Otherwise a
    round is needed exactly when the first two scores, or the second and
    the third, are closer than the configured margin, or two categories
    share the third score. *)
Theorem needs_tie_breaker_iff `{Config} t :
  NoDup (t.*1) →
  ((length t < 3)%nat → needs_tie_breaker t = false)
  ∧ (∀ c1 s1 c2 s2 c3 s3 rest,
       sorted_by_score t = (c1, s1) :: (c2, s2) :: (c3, s3) :: rest →
       needs_tie_breaker t = true ↔
         s1 - s2 < configured_delta ∨ s2 - s3 < configured_delta
         ∨ ∃ a b, a ≠ b ∧ (a, s3) ∈ t ∧ (b, s3) ∈ t).
Proof.
  intros Hnd. unfold needs_tie_breaker. split.
  - intros Hlen. rewrite identify_tie_pairs_short by done.
    by rewrite size_empty.
  - intros c1 s1 c2 s2 c3 s3 rest Hs.
    rewrite bool_decide_eq_true.
    assert ((0 < size (identify_tie_pairs t configured_delta))%nat ↔
            ∃ p, p ∈ identify_tie_pairs t configured_delta) as ->.
    { split; [apply size_pos_elem_of|].
      intros [p Hp]. apply Nat.neq_0_lt_0. intros Hz.
      apply size_empty_iff in Hz. by apply Hz in Hp. }
    setoid_rewrite (elem_of_identify_tie_pairs _ _ _ _ _ _ _ _ _ _ Hnd Hs).
    split.
    + intros (p & [[? _]|[[? _]|(a & b & ? & ? & ? & _)]]); eauto 10.
    + intros [?|[?|(a & b & ? & ? & ?)]].
      * exists (pair_name c1 c2). by left.
      * exists (pair_name c2 c3). right. by left.
      * exists (pair_name a b). right. right. by exists a, b.
Qed.

Lemma needs_tie_breaker_iff_witness :
  @needs_tie_breaker default_config tally_scenario = true.
Proof.
  destruct (@needs_tie_breaker_iff default_config tally_scenario) as [_ H].
  - compute_decide.
  - eapply H; [reflexivity|]. left. vm_compute. reflexivity.
Defined.

(** ** The resolved code and the figures shown with it *)

(** Unlike [identify_tie_pairs], the resolved code does not depend on the
    key order of the tally. *)
Theorem resolve_riasec_code_key_order t1 t2 :
  t1 ≡ₚ t2 → resolve_riasec_code t1 = resolve_riasec_code t2.
Proof.
  intros Hp. unfold resolve_riasec_code. do 3 f_equal.
  apply (StronglySorted_unique rank_le); [apply resolve_sorted..|].
  by rewrite !sorted_Permutation.
Qed.

Lemma resolve_riasec_code_key_order_witness :
  resolve_riasec_code tally_RIA = resolve_riasec_code tally_RAI.
Proof. apply resolve_riasec_code_key_order. exact tally_RIA_RAI. Defined.

(** On a tally of at least three categories the code is made of three
    different categories of the tally, in descending order of score, and
    no category left out scores more than the last of them. *)
Theorem resolve_riasec_code_top_three t :
  NoDup (t.*1) → (3 ≤ length t)%nat →
  ∃ c1 s1 c2 s2 c3 s3,
    resolve_riasec_code t = Py.join [c1; c2; c3]
    ∧ (c1, s1) ∈ t ∧ (c2, s2) ∈ t ∧ (c3, s3) ∈ t
    ∧ c1 ≠ c2 ∧ c1 ≠ c3 ∧ c2 ≠ c3
    ∧ s2 ≤ s1 ∧ s3 ≤ s2
    ∧ ∀ c s, (c, s) ∈ t → c ≠ c1 → c ≠ c2 → c ≠ c3 → s ≤ s3.
Proof.
  intros Hnd Hlen.
  pose proof (resolve_sorted t) as Hs.
  pose proof (sorted_Permutation resolve_ltb t) as Hp.
  pose proof (sorted_length resolve_ltb t) as Hl.
  unfold resolve_riasec_code.
  rewrite <-Hp in Hnd.
  assert (∀ e, e ∈ t ↔ e ∈ Py.sorted resolve_ltb t) as Hin.
  { intros e. by rewrite Hp. }
  destruct (Py.sorted resolve_ltb t)
    as [|[c1 s1] [|[c2 s2] [|[c3 s3] rest]]]; simpl in Hl; try lia.
  exists c1, s1, c2, s2, c3, s3.
  apply StronglySorted_inv in Hs as [Hs H1].
  apply StronglySorted_inv in Hs as [Hs H2].
  apply StronglySorted_inv in Hs as [_ H3].
  apply Forall_cons in H1 as [H12 _]. apply Forall_cons in H2 as [H23 _].
  rewrite Forall_forall in H3.
  rewrite !fmap_cons in Hnd. simpl in Hnd.
  apply NoDup_cons in Hnd as [Hc1 Hnd]. apply NoDup_cons in Hnd as [Hc2 _].
  rewrite !not_elem_of_cons in Hc1, Hc2.
  destruct Hc1 as [Hc12 Hc13]. apply not_elem_of_cons in Hc13 as [Hc13 _].
  destruct Hc2 as [Hc23 _].
  split; [done|].
  split; [apply Hin; by left|].
  split; [apply Hin; right; by left|].
  split; [apply Hin; right; right; by left|].
  do 3 (split; [done|]).
  split; [destruct H12 as [?|[? _]]; simpl in *; lia|].
  split; [destruct H23 as [?|[? _]]; simpl in *; lia|].
  intros c s Hc ???. apply Hin in Hc.
  rewrite !elem_of_cons in Hc.
  destruct Hc as [?|[?|[?|Hc]]]; simplify_eq.
  apply H3 in Hc. destruct Hc as [?|[? _]]; simpl in *; lia.
Qed.

Lemma resolve_riasec_code_top_three_witness :
  ∃ c1 s1 c2 s2 c3 s3,
    resolve_riasec_code tally_scenario = Py.join [c1; c2; c3]
    ∧ (c1, s1) ∈ tally_scenario ∧ (c2, s2) ∈ tally_scenario
    ∧ (c3, s3) ∈ tally_scenario
    ∧ c1 ≠ c2 ∧ c1 ≠ c3 ∧ c2 ≠ c3
    ∧ s2 ≤ s1 ∧ s3 ≤ s2
    ∧ ∀ c s, (c, s) ∈ tally_scenario → c ≠ c1 → c ≠ c2 → c ≠ c3 → s ≤ s3.
Proof.
  apply (resolve_riasec_code_top_three tally_scenario).
  - compute_decide.
  - simpl. lia.
Defined.

Lemma resolve_scores_sorted t :
  StronglySorted (λ x y : Z, y ≤ x) (Py.sorted resolve_ltb t).*2.
Proof.
  apply StronglySorted_fmap with (R1 := rank_le); [|apply resolve_sorted].
  intros x y [?|[? _]]; lia.
Qed.

Lemma sorted_scores_agree t :
  (sorted_by_score t).*2 = (Py.sorted resolve_ltb t).*2.
Proof.
  assert (AntiSymm (=) (λ x y : Z, y ≤ x)) by (intros x y ??; lia).
  apply (StronglySorted_unique (λ x y : Z, y ≤ x)).
  - apply StronglySorted_fmap with (R1 := score_ge);
      [|apply sorted_by_score_sorted].
    by intros x y.
  - apply resolve_scores_sorted.
  - by rewrite sorted_by_score_Permutation, sorted_Permutation.
Qed.

Lemma foldl_max_le v vs : v ≤ foldl Z.max v vs.
Proof.
  revert v. induction vs as [|w vs IH]; intros v; simpl; [lia|].
  etrans; [|apply IH]. lia.
Qed.

Lemma foldl_max_ge v vs x : x ∈ vs → x ≤ foldl Z.max v vs.
Proof.
  revert v. induction vs as [|w vs IH]; intros v Hx; simpl.
  { by apply elem_of_nil in Hx. }
  apply elem_of_cons in Hx as [->|Hx]; [|by apply IH].
  etrans; [|apply foldl_max_le]. lia.
Qed.

Lemma foldl_max_elem_of v vs : foldl Z.max v vs ∈ v :: vs.
Proof.
  revert v. induction vs as [|w vs IH]; intros v; simpl; [by left|].
  specialize (IH (Z.max v w)). apply elem_of_cons in IH as [->|IH].
  - destruct (Z.max_spec v w) as [[_ ->]|[_ ->]]; [right; left|left].
  - right. by right.
Qed.

(** The three scores listed on the results page are, in order, the scores
    of the three letters of the code, although the two are sorted with
    different tie-breaks; the maximum used to scale the bars bounds every
    score and is the first score listed; an empty tally gives the default
    maximum 1. *)
Theorem results_figures t :
  (top_riasec t).*2 = (take 3 (Py.sorted resolve_ltb t)).*2
  ∧ (∀ c s, (c, s) ∈ t → s ≤ max_riasec_score t)
  ∧ (t ≠ [] → head ((top_riasec t).*2) = Some (max_riasec_score t))
  ∧ max_riasec_score [] = 1.
Proof.
  split; [|split; [|split; [|done]]].
  - unfold top_riasec. by rewrite !fmap_take, sorted_scores_agree.
  - intros c s Hin. apply (list_elem_of_fmap_2 snd) in Hin. simpl in Hin.
    unfold max_riasec_score, max_score.
    destruct (t.*2) as [|v vs]; [by apply elem_of_nil in Hin|].
    apply elem_of_cons in Hin as [->|Hin];
      [apply foldl_max_le|by apply foldl_max_ge].
  - intros Hne. unfold top_riasec. rewrite fmap_take.
    pose proof (sorted_by_score_sorted t) as Hs.
    pose proof (sorted_by_score_Permutation t) as Hp.
    apply (StronglySorted_fmap snd score_ge (λ x y : Z, y ≤ x)) in Hs;
      [|by intros x y].
    apply (fmap_Permutation snd) in Hp.
    unfold max_riasec_score, max_score.
    destruct ((sorted_by_score t).*2) as [|s1 ss] eqn:Hss.
    { apply Permutation_nil_l in Hp. destruct t; [done|discriminate]. }
    simpl. f_equal.
    destruct (t.*2) as [|v vs] eqn:Hv.
    { by apply Permutation_nil_r in Hp. }
    apply StronglySorted_inv in Hs as [_ Hs]. rewrite Forall_forall in Hs.
    pose proof (foldl_max_elem_of v vs) as Hmax.
    rewrite <-Hp in Hmax.
    assert (s1 ∈ v :: vs) as Hs1 by (rewrite <-Hp; by left).
    assert (s1 ≤ foldl Z.max v vs).
    { apply elem_of_cons in Hs1 as [->|Hs1];
        [apply foldl_max_le|by apply foldl_max_ge]. }
    apply elem_of_cons in Hmax as [->|Hmax]; [done|].
    apply Hs in Hmax. lia.
Qed.

Lemma results_figures_witness :
  head ((top_riasec tally_scenario).*2) = Some 5.
Proof.
  destruct (results_figures tally_scenario) as (_ & _ & H & _).
  rewrite H; [reflexivity|discriminate].
Defined.

(** ** More on [calculate_scores] *)

(** An answer stored under a key that [int] rejects is skipped like an
    unknown question: the [try] around the conversion absorbs the error. *)
Theorem calculate_scores_skips_bad_key `{PyLib, QuestionBanks}
    use before answer after :
  py_int answer.1 = None →
  calculate_scores use (before ++ answer :: after) =
  calculate_scores use (before ++ after).
Proof.
  intros Hkey. unfold calculate_scores. rewrite !foldl_app. simpl.
  rewrite score_answer_skip; [done|].
  destruct answer as [qnum_key selected]. simpl in Hkey.
  unfold chosen_option. by rewrite Hkey.
Qed.

Lemma calculate_scores_skips_bad_key_witness :
  @calculate_scores demo_lib demo_banks true [("1", "B"); ("x", "A")]
  = @calculate_scores demo_lib demo_banks true [("1", "B")].
Proof.
  apply (@calculate_scores_skips_bad_key demo_lib demo_banks true
           [("1", "B")] ("x", "A") []).
  reflexivity.
Defined.

(** *** Answers as the session stores them *)

(** An entry of the stored record is skipped, whatever its place, when the
    bank the size rule selects has no question bearing its number (the
    label may then be any JSON value), and when its label can be hashed
    and is none of the option labels of the question it resolves to: the
    loop body returns the tallies as they were, without raising, and the
    record gives what it gives without the entry. *)
Theorem calculate_scores_json_skips `{PyLib, QuestionBanks}
    use before qnum_key (selected : Json) after :
  (∃ qnum, py_int qnum_key = Some qnum
           ∧ ∀ q, q ∈ selected_bank qnum → q_number q ≠ qnum)
  ∨ (∃ question, resolved_question qnum_key = Some question
                 ∧ hashable selected = true
                 ∧ ∀ options label,
                     q_options question = Some options →
                     selected = Jstring label → options !! label = None) →
  (∀ scores,
     score_answer_json use scores (qnum_key, selected) = returned scores)
  ∧ calculate_scores_json use (before ++ (qnum_key, selected) :: after) =
    calculate_scores_json use (before ++ after).
Proof.
  intros Hskip.
  assert (∀ scores,
            score_answer_json use scores (qnum_key, selected) =
            returned scores) as Hstep.
  { intros [riasec_scores aptitude_scores]. unfold score_answer_json.
    destruct Hskip as [(qnum & Hq & Hnone)|(question & Hq & Hh & Hl)].
    - rewrite Hq, lookup_question_selected.
      rewrite filter_none; [done|]. by apply Forall_forall.
    - unfold resolved_question in Hq.
      destruct (py_int qnum_key) as [qnum|]; [|done].
      cbn [mbind option_bind] in Hq. rewrite lookup_question_selected, Hq.
      destruct selected as [| | |label| |]; try done.
      unfold dict_lookup, question_options.
      destruct (q_options question) as [options|]; cbn [default from_option].
      + unfold id. by rewrite (Hl options label eq_refl eq_refl).
      + by rewrite lookup_empty. }
  split; [done|].
  unfold calculate_scores_json. rewrite !foldl_app. cbn [foldl].
  destruct (foldl _ _ before) as [scores|]; [by rewrite Hstep|done].
Qed.

Lemma calculate_scores_json_skips_witness :
  @calculate_scores_json demo_lib demo_banks false
    [("1", Jstring "B"); ("9", Jlist []); ("2", Jnumber 1); ("3", Jstring "B")]
  = @calculate_scores_json demo_lib demo_banks false
      [("1", Jstring "B"); ("3", Jstring "B")].
Proof.
  etrans.
  - apply (@calculate_scores_json_skips demo_lib demo_banks false
             [("1", Jstring "B")] "9" (Jlist [])
             [("2", Jnumber 1); ("3", Jstring "B")]).
    left. exists 9. split; [reflexivity|].
    intros q Hq. vm_compute in Hq.
    repeat (apply elem_of_cons in Hq as [->|Hq]; [discriminate|]).
    by apply elem_of_nil in Hq.
  - apply (@calculate_scores_json_skips demo_lib demo_banks false
             [("1", Jstring "B")] "2" (Jnumber 1) [("3", Jstring "B")]).
    right. eexists. split; [reflexivity|]. split; [reflexivity|].
    intros options label _ Hlabel. discriminate Hlabel.
Defined.

(** A label that cannot be hashed, a list or a dict, stored for a question
    that the banks know: [calculate_scores] raises [TypeError], whatever
    else the record holds. *)
Theorem calculate_scores_json_raises `{PyLib, QuestionBanks}
    use before qnum_key (selected : Json) after :
  is_Some (resolved_question qnum_key) →
  hashable selected = false →
  calculate_scores_json use (before ++ (qnum_key, selected) :: after) =
  raised_TypeError.
Proof.
  intros [question Hq] Hh.
  unfold calculate_scores_json. rewrite foldl_app. cbn [foldl].
  assert (match foldl _ _ before with
          | returned scores =>
              score_answer_json use scores (qnum_key, selected)
          | raised_TypeError => raised_TypeError
          end = raised_TypeError) as ->; [|apply calculate_scores_json_raised].
  destruct (foldl _ _ before) as [[riasec_scores aptitude_scores]|]; [|done].
  unfold score_answer_json. unfold resolved_question in Hq.
  destruct (py_int qnum_key) as [qnum|]; [|done].
  cbn [mbind option_bind] in Hq. rewrite lookup_question_selected, Hq.
  by destruct selected.
Qed.

Lemma calculate_scores_json_raises_witness :
  @calculate_scores_json demo_lib demo_banks true
    [("1", Jstring "B"); ("2", Jdict [("label", Jstring "A")]);
     ("3", Jstring "B")]
  = raised_TypeError.
Proof.
  apply (@calculate_scores_json_raises demo_lib demo_banks true
           [("1", Jstring "B")] "2" (Jdict [("label", Jstring "A")])
           [("3", Jstring "B")]).
  - eexists. reflexivity.
  - reflexivity.
Defined.

Lemma score_answer_json_other `{PyLib, QuestionBanks}
    use scores qnum_key (selected : Json) scores' :
  (∀ label, selected ≠ Jstring label) →
  score_answer_json use scores (qnum_key, selected) = returned scores' →
  scores' = scores.
Proof.
  intros Hs. destruct scores as [riasec_scores aptitude_scores].
  unfold score_answer_json.
  destruct (py_int qnum_key) as [qnum|]; [|congruence].
  destruct (lookup_question qnum) as [question|]; [|congruence].
  destruct selected as [| | |label| |]; cbn [dict_lookup]; try congruence.
  by destruct (Hs label).
Qed.

Lemma calculate_scores_json_from `{PyLib, QuestionBanks}
    use (answers : list (string * Json)) acc scores :
  foldl (λ scores answer,
           match scores with
           | returned scores => score_answer_json use scores answer
           | raised_TypeError => raised_TypeError
           end) (returned acc) answers = returned scores →
  scores = foldl (score_answer use) acc (string_answers answers).
Proof.
  revert acc. induction answers as [|[qnum_key selected] answers IH];
    intros acc; cbn [foldl].
  { by intros [= <-]. }
  destruct (score_answer_json use acc (qnum_key, selected)) as [acc'|]
    eqn:Hstep.
  2:{ rewrite calculate_scores_json_raised. discriminate. }
  intros Hrest. apply IH in Hrest. subst scores.
  unfold string_answers. cbn [omap list_omap fst snd].
  destruct selected as [| | |label| |];
    try (by apply score_answer_json_other in Hstep as ->).
  rewrite score_answer_json_string in Hstep. by injection Hstep as <-.
Qed.

(** On a record whose labels are all strings the scoring never raises and
    returns the tallies of [calculate_scores]; and whenever it returns on
    a stored record, the tallies are those of the entries whose label is
    a string: no other entry counts. *)
Theorem calculate_scores_json_strings `{PyLib, QuestionBanks} use :
  (∀ answers,
     calculate_scores_json use (stored answers) =
     returned (calculate_scores use answers))
  ∧ (∀ answers scores,
       calculate_scores_json use answers = returned scores →
       scores = calculate_scores use (string_answers answers)).
Proof.
  split.
  - intros answers. unfold calculate_scores_json, stored.
    induction answers as [|[qnum_key label] answers IH] using rev_ind;
      [done|].
    rewrite fmap_app, foldl_app, IH. cbn [fmap list_fmap foldl prod_map].
    cbn [fst snd id]. rewrite score_answer_json_string.
    by rewrite calculate_scores_snoc.
  - intros answers scores. apply calculate_scores_json_from.
Qed.

Lemma calculate_scores_json_strings_witness :
  @calculate_scores_json demo_lib demo_banks true
    [("1", Jstring "B"); ("2", Jbool true); ("3", Jstring "B")]
  = returned (@calculate_scores demo_lib demo_banks true
                [("1", "B"); ("3", "B")]).
Proof.
  destruct (@calculate_scores_json_strings demo_lib demo_banks true)
    as [_ Hreturned].
  destruct (@calculate_scores_json demo_lib demo_banks true
              [("1", Jstring "B"); ("2", Jbool true); ("3", Jstring "B")])
    as [scores|] eqn:Hrun.
  - f_equal. apply (Hreturned _ _ Hrun).
  - vm_compute in Hrun. discriminate Hrun.
Defined.

(** *** The keys of the aptitude tally *)

Lemma dom_counter_add k n (c : gmap string Z) (D : gset string) :
  k ∈ D → dom c ⊆ D → dom (Py.counter_add k n c) ⊆ D.
Proof.
  intros Hk Hc. unfold Py.counter_add. rewrite dom_insert_L.
  apply union_subseteq. split; [by apply singleton_subseteq_l|done].
Qed.

Lemma dom_counter_add_grows k n (c : gmap string Z) :
  dom c ⊆ dom (Py.counter_add k n c).
Proof.
  unfold Py.counter_add. rewrite dom_insert_L. apply union_subseteq_r.
Qed.

Lemma dom_foldl_counter_add (f : string → Z) ks (c : gmap string Z)
    (D : gset string) :
  Forall (λ k, k ∈ D) ks → dom c ⊆ D →
  dom (foldl (λ c k, Py.counter_add k (f k) c) c ks) ⊆ D.
Proof.
  intros Hks. revert c.
  induction Hks as [|k ks Hk _ IH]; intros c Hc; simpl; [done|].
  by apply IH, dom_counter_add.
Qed.

Lemma dom_foldl_counter_add_grows (f : string → Z) ks (c : gmap string Z) :
  dom c ⊆ dom (foldl (λ c k, Py.counter_add k (f k) c) c ks).
Proof.
  revert c. induction ks as [|k ks IH]; intros c; simpl; [done|].
  etrans; [|apply IH]. apply dom_counter_add_grows.
Qed.

Lemma OLD_TO_NEW_APT_MAP_new old_key new_keys :
  OLD_TO_NEW_APT_MAP !! old_key = Some new_keys →
  Forall (λ k, k ∈ NEW_APTITUDES) new_keys.
Proof.
  intros Hk. apply elem_of_list_to_map_2 in Hk.
  repeat (apply elem_of_cons in Hk as [Hk|Hk];
          [injection Hk as -> ->; compute_decide|]).
  by apply elem_of_nil in Hk.
Qed.

Lemma KEYWORD_TO_APTS_new :
  Forall (λ e, Forall (λ k, k ∈ NEW_APTITUDES) e.2) KEYWORD_TO_APTS.
Proof. compute_decide. Qed.

Section aptitude_keys.
Context `{PyLib, QuestionBanks} (D : gset string).
Hypothesis D_new : ∀ k, k ∈ NEW_APTITUDES → k ∈ D.

Lemma Forall_NEW_APTITUDES ks :
  Forall (λ k, k ∈ NEW_APTITUDES) ks → Forall (λ k, k ∈ D) ks.
Proof. intros Hks. eapply Forall_impl; [exact Hks|]. exact D_new. Qed.

Lemma dom_add_aptitude (c : gmap string Z) item :
  dom c ⊆ D → dom (add_aptitude c item) ⊆ D.
Proof.
  intros Hc. destruct item as [old_key score]. simpl.
  destruct (OLD_TO_NEW_APT_MAP !! old_key) as [new_keys|] eqn:Hk.
  - apply (dom_foldl_counter_add (λ _, score)); [|done].
    by eapply Forall_NEW_APTITUDES, OLD_TO_NEW_APT_MAP_new.
  - case_bool_decide; [|done].
    apply dom_counter_add; [by apply D_new|done].
Qed.

Lemma dom_add_aptitude_grows (c : gmap string Z) item :
  dom c ⊆ dom (add_aptitude c item).
Proof.
  destruct item as [old_key score]. simpl.
  destruct (OLD_TO_NEW_APT_MAP !! old_key) as [new_keys|].
  - apply (dom_foldl_counter_add_grows (λ _, score)).
  - case_bool_decide; [apply dom_counter_add_grows|done].
Qed.

Lemma dom_enrich_from_text text : dom (enrich_from_text text) ⊆ D.
Proof.
  unfold enrich_from_text. case_decide; [by rewrite dom_empty_L|].
  generalize (py_lower text) as txt. intros txt.
  pose proof KEYWORD_TO_APTS_new as Htable. revert Htable.
  generalize KEYWORD_TO_APTS as table.
  assert (dom (∅ : gmap string Z) ⊆ D) as Hc by by rewrite dom_empty_L.
  revert Hc. generalize (∅ : gmap string Z) as c.
  intros c Hc table Htable. revert c Hc.
  induction Htable as [|[patt apt_list] table Hapts _ IH];
    intros c Hc; simpl; [done|].
  apply IH. destruct (re_search patt txt); [|done].
  apply (dom_foldl_counter_add (λ _, 1)); [|done].
  by apply Forall_NEW_APTITUDES.
Qed.

Lemma dom_foldl_items (items : list (string * Z)) (c : gmap string Z) :
  Forall (λ e, e.1 ∈ D) items → dom c ⊆ D →
  dom (foldl (λ c '(k, v), Py.counter_add k v c) c items) ⊆ D
  ∧ dom c ⊆ dom (foldl (λ c '(k, v), Py.counter_add k v c) c items).
Proof.
  intros Hitems. revert c.
  induction Hitems as [|[k v] items Hk _ IH]; intros c Hc; simpl; [done|].
  destruct (IH (Py.counter_add k v c)) as [IH1 IH2];
    [by apply dom_counter_add|].
  split; [done|]. etrans; [|exact IH2]. apply dom_counter_add_grows.
Qed.

Lemma dom_add_text_boosts (c : gmap string Z) text_field :
  dom c ⊆ D →
  dom (add_text_boosts c text_field) ⊆ D
  ∧ dom c ⊆ dom (add_text_boosts c text_field).
Proof.
  intros Hc. destruct text_field as [text|]; simpl; [|done].
  apply dom_foldl_items; [|done].
  apply Forall_forall. intros [k v] Hkv. simpl.
  apply elem_of_map_to_list in Hkv.
  apply (dom_enrich_from_text text). by apply elem_of_dom_2 in Hkv.
Qed.

Lemma dom_foldl_add_aptitude (c : gmap string Z) items :
  dom c ⊆ D →
  dom (foldl add_aptitude c items) ⊆ D
  ∧ dom c ⊆ dom (foldl add_aptitude c items).
Proof.
  revert c. induction items as [|item items IH]; intros c Hc; cbn [foldl];
    [done|].
  destruct (IH (add_aptitude c item)) as [IH1 IH2];
    [by apply dom_add_aptitude|].
  split; [done|]. etrans; [|exact IH2]. apply dom_add_aptitude_grows.
Qed.

Lemma dom_score_answer use scores answer :
  dom scores.2 = D → dom (score_answer use scores answer).2 = D.
Proof.
  destruct scores as [r a]. cbn [snd]. intros Ha. unfold score_answer.
  destruct (chosen_option answer) as [[question option]|]; [|done].
  cbn [snd].
  assert (dom a ⊆ D) as Hsub by by rewrite Ha.
  destruct (dom_foldl_add_aptitude a (option_apts option) Hsub) as [H1 H2].
  rewrite Ha in H2.
  destruct use; [|by apply (anti_symm (⊆))].
  cbn [foldl].
  destruct (dom_add_text_boosts _ (q_explain question) H1) as [H3 H4].
  destruct (dom_add_text_boosts _ (q_hint question) H3) as [H5 H6].
  destruct (dom_add_text_boosts _ (q_job_text question) H5) as [H7 H8].
  apply (anti_symm (⊆)); [done|].
  etrans; [exact H2|]. etrans; [exact H4|]. etrans; [exact H6|]. done.
Qed.

End aptitude_keys.

(** The aptitude tally returned has exactly the twelve names of the
    current taxonomy as keys, whatever the answers, the banks and the
    enrichment mode: legacy and unknown names never become keys. *)
Theorem calculate_scores_aptitude_keys `{PyLib, QuestionBanks} use answers :
  dom (calculate_scores use answers).2 = list_to_set NEW_APTITUDES.
Proof.
  induction answers as [|answer answers IH] using rev_ind.
  - unfold calculate_scores, aptitude_zero. cbn [foldl snd].
    rewrite dom_list_to_map_L. f_equal.
  - rewrite calculate_scores_snoc. apply dom_score_answer; [|done].
    intros k Hk. by rewrite elem_of_list_to_set.
Qed.

(** *** The order of the answers does not matter *)

Lemma counter_add_comm k1 n1 k2 n2 (c : gmap string Z) :
  Py.counter_add k1 n1 (Py.counter_add k2 n2 c) =
  Py.counter_add k2 n2 (Py.counter_add k1 n1 c).
Proof.
  unfold Py.counter_add, Py.counter_get.
  destruct (decide (k1 = k2)) as [->|Hne].
  - rewrite !lookup_insert_eq, !insert_insert_eq. simpl. f_equal. lia.
  - rewrite !lookup_insert_ne by done. by apply insert_insert_ne.
Qed.

Section commuting_updates.
Context `{PyLib, QuestionBanks} (g : gmap string Z → gmap string Z).
Hypothesis g_comm : ∀ k n c, g (Py.counter_add k n c) = Py.counter_add k n (g c).

Lemma foldl_counter_add_comm (f : string → Z) ks c :
  foldl (λ c k, Py.counter_add k (f k) c) (g c) ks =
  g (foldl (λ c k, Py.counter_add k (f k) c) c ks).
Proof.
  revert c. induction ks as [|k ks IH]; intros c; simpl; [done|].
  by rewrite <-g_comm, IH.
Qed.

Lemma add_aptitude_comm c item : add_aptitude (g c) item = g (add_aptitude c item).
Proof.
  destruct item as [old_key score]. simpl.
  destruct (OLD_TO_NEW_APT_MAP !! old_key) as [new_keys|].
  - apply (foldl_counter_add_comm (λ _, score)).
  - by case_bool_decide.
Qed.

Lemma foldl_add_aptitude_comm c items :
  foldl add_aptitude (g c) items = g (foldl add_aptitude c items).
Proof.
  revert c. induction items as [|item items IH]; intros c; cbn [foldl];
    [done|].
  by rewrite add_aptitude_comm, IH.
Qed.

Lemma foldl_items_comm (items : list (string * Z)) c :
  foldl (λ c '(k, v), Py.counter_add k v c) (g c) items =
  g (foldl (λ c '(k, v), Py.counter_add k v c) c items).
Proof.
  revert c. induction items as [|[k v] items IH]; intros c; simpl; [done|].
  by rewrite <-g_comm, IH.
Qed.

Lemma add_text_boosts_comm c text_field :
  add_text_boosts (g c) text_field = g (add_text_boosts c text_field).
Proof.
  destruct text_field as [text|]; [|done]. apply foldl_items_comm.
Qed.

Lemma score_answer_aptitude_comm use r c answer :
  (score_answer use (r, g c) answer).2 = g (score_answer use (r, c) answer).2.
Proof.
  unfold score_answer.
  destruct (chosen_option answer) as [[question option]|]; [|done].
  cbn [snd]. rewrite foldl_add_aptitude_comm.
  destruct use; [|done]. cbn [foldl].
  by rewrite !add_text_boosts_comm.
Qed.

End commuting_updates.

Lemma dict_add_comm k1 n1 k2 n2 d :
  Py.dict_add k1 n1 (Py.dict_add k2 n2 d) =
  Py.dict_add k2 n2 (Py.dict_add k1 n1 d).
Proof.
  unfold Py.dict_add. rewrite <-!list_fmap_compose.
  apply list_fmap_ext. intros _ [k v] _. simpl.
  repeat (case_decide; simpl in *); try done; f_equal; lia.
Qed.

Lemma dict_mem_dict_add k k' n (d : list (string * Z)) :
  Py.dict_mem k (Py.dict_add k' n d) = Py.dict_mem k d.
Proof. unfold Py.dict_mem. by rewrite dict_add_keys. Qed.

Lemma count_riasec_comm o1 o2 r :
  count_riasec o1 (count_riasec o2 r) = count_riasec o2 (count_riasec o1 r).
Proof.
  unfold count_riasec.
  destruct (o_riasec o1) as [k1|], (o_riasec o2) as [k2|]; try done.
  destruct (Py.dict_mem k1 r) eqn:H1, (Py.dict_mem k2 r) eqn:H2;
    rewrite ?dict_mem_dict_add, ?H1, ?H2; try done.
  apply dict_add_comm.
Qed.

Lemma score_answer_fst `{PyLib, QuestionBanks} use r c c' answer :
  (score_answer use (r, c) answer).1 = (score_answer use (r, c') answer).1.
Proof.
  unfold score_answer. by destruct (chosen_option answer) as [[??]|].
Qed.

Lemma score_answer_snd `{PyLib, QuestionBanks} use r r' c answer :
  (score_answer use (r, c) answer).2 = (score_answer use (r', c) answer).2.
Proof.
  unfold score_answer. by destruct (chosen_option answer) as [[??]|].
Qed.

Lemma score_answer_riasec_comm `{PyLib, QuestionBanks} use r c a1 a2 :
  (score_answer use (score_answer use (r, c) a1) a2).1 =
  (score_answer use (score_answer use (r, c) a2) a1).1.
Proof.
  unfold score_answer.
  destruct (chosen_option a1) as [[q1 o1]|], (chosen_option a2) as [[q2 o2]|];
    try done.
  cbn [fst]. apply count_riasec_comm.
Qed.

Lemma score_answer_comm `{PyLib, QuestionBanks} use scores a1 a2 :
  score_answer use (score_answer use scores a1) a2 =
  score_answer use (score_answer use scores a2) a1.
Proof.
  destruct scores as [r c].
  apply injective_projections; [apply score_answer_riasec_comm|].
  set (g1 := λ c, (score_answer use (r, c) a1).2).
  set (g2 := λ c, (score_answer use (r, c) a2).2).
  assert (∀ k n c, g1 (Py.counter_add k n c) = Py.counter_add k n (g1 c)) as Hg1.
  { intros k n c'. unfold g1.
    rewrite (score_answer_aptitude_comm (Py.counter_add k n)); [done|].
    intros. apply counter_add_comm. }
  transitivity (g2 (g1 c)).
  { unfold g1, g2. destruct (score_answer use (r, c) a1) as [r1 c1]. cbn [snd].
    apply score_answer_snd. }
  transitivity (g1 (g2 c)).
  { unfold g2 at 1. rewrite (score_answer_aptitude_comm g1 Hg1). done. }
  unfold g1, g2. destruct (score_answer use (r, c) a2) as [r2 c2]. cbn [snd].
  apply score_answer_snd.
Qed.

Lemma foldl_Permutation {A B} (f : B → A → B) l1 l2 :
  (∀ b x y, f (f b x) y = f (f b y) x) →
  l1 ≡ₚ l2 → ∀ b, foldl f b l1 = foldl f b l2.
Proof.
  intros Hf. induction 1 as [|x l1 l2 _ IH|x y l|l1 l2 l3 _ IH1 _ IH2];
    intros b; simpl.
  - done.
  - apply IH.
  - by rewrite Hf.
  - by rewrite IH1.
Qed.

(** The tallies depend on which answers are recorded, not on the order in
    which the record lists them. *)
Theorem calculate_scores_answer_order `{PyLib, QuestionBanks}
    use answers1 answers2 :
  answers1 ≡ₚ answers2 →
  calculate_scores use answers1 = calculate_scores use answers2.
Proof.
  intros Hp. unfold calculate_scores.
  apply foldl_Permutation; [|done].
  intros scores a1 a2. apply score_answer_comm.
Qed.

Lemma calculate_scores_answer_order_witness :
  @calculate_scores demo_lib demo_banks true [("1", "B"); ("2", "A")]
  = @calculate_scores demo_lib demo_banks true [("2", "A"); ("1", "B")].
Proof.
  apply (@calculate_scores_answer_order demo_lib demo_banks).
  apply perm_swap.
Defined.

(** ** Text enrichment *)

Lemma counter_get_foldl_ones apts (c : gmap string Z) a :
  NoDup apts →
  Py.counter_get (foldl (λ c k, Py.counter_add k 1 c) c apts) a =
  Py.counter_get c a + (if decide (a ∈ apts) then 1 else 0).
Proof.
  intros Hnd.
  destruct (lookup_foldl_counter_add 1 apts c a Hnd) as [Hin Hout].
  unfold Py.counter_get at 1. case_decide as Ha.
  - by rewrite Hin.
  - rewrite Hout by done. unfold Py.counter_get. lia.
Qed.

Lemma KEYWORD_TO_APTS_NoDup : Forall (λ e, NoDup e.2) KEYWORD_TO_APTS.
Proof. compute_decide. Qed.

Lemma counter_get_enrich_table `{PyLib} table txt (c : gmap string Z) a :
  Forall (λ e, NoDup e.2) table →
  Py.counter_get
    (foldl (λ boosts '(patt, apt_list),
              if re_search patt txt
              then foldl (λ boosts a, Py.counter_add a 1 boosts)
                         boosts apt_list
              else boosts) c table) a =
  Py.counter_get c a
  + Z.of_nat (length (filter (λ e, re_search e.1 txt = true ∧ a ∈ e.2) table)).
Proof.
  intros Htable. revert c.
  induction Htable as [|[patt apt_list] table Hnd _ IH]; intros c.
  { simpl. lia. }
  cbn [foldl]. rewrite IH. clear IH. rewrite filter_cons. simpl in *.
  destruct (re_search patt txt) eqn:Hm.
  - rewrite counter_get_foldl_ones by done.
    destruct (decide (a ∈ apt_list)).
    + rewrite decide_True by done. simpl length. lia.
    + rewrite decide_False by naive_solver. lia.
  - rewrite decide_False by naive_solver. done.
Qed.

Lemma enrich_from_text_positive `{PyLib} text :
  map_Forall (λ _ v, 1 ≤ v) (enrich_from_text text).
Proof.
  unfold enrich_from_text. case_decide; [apply map_Forall_empty|].
  generalize (py_lower text) as txt. intros txt.
  generalize KEYWORD_TO_APTS as table.
  assert (map_Forall (λ _ v, 1 ≤ v) (∅ : gmap string Z)) as Hc
    by apply map_Forall_empty.
  revert Hc. generalize (∅ : gmap string Z) as c.
  intros c Hc table. revert c Hc.
  induction table as [|[patt apt_list] table IH]; intros c Hc; simpl; [done|].
  apply IH. destruct (re_search patt txt); [|done].
  clear IH. revert c Hc.
  induction apt_list as [|k ks IH]; intros c Hc; simpl; [done|].
  apply IH. unfold Py.counter_add, Py.counter_get.
  apply map_Forall_insert_2; [|done].
  destruct (c !! k) as [v|] eqn:Hv; simpl; [|lia].
  apply Hc in Hv. lia.
Qed.

(** The boost of an aptitude is the number of keyword patterns listing it
    that are found in the lowered text: a pattern counts once, however
    often it occurs.  An aptitude is a key of the boosts exactly when its
    boost is positive, and an empty text gives no boosts at all. *)
Theorem enrich_from_text_counts `{PyLib} text a :
  (text ≠ "" →
   Py.counter_get (enrich_from_text text) a =
   Z.of_nat (length (filter (λ e, re_search e.1 (py_lower text) = true
                                   ∧ a ∈ e.2) KEYWORD_TO_APTS)))
  ∧ (is_Some (enrich_from_text text !! a) ↔
     0 < Py.counter_get (enrich_from_text text) a)
  ∧ enrich_from_text "" = ∅.
Proof.
  split; [|split; [|done]].
  - intros Hne. unfold enrich_from_text. rewrite decide_False by done.
    rewrite counter_get_enrich_table by apply KEYWORD_TO_APTS_NoDup.
    unfold Py.counter_get. by rewrite lookup_empty.
  - unfold Py.counter_get. split.
    + intros [v Hv]. rewrite Hv. simpl.
      apply enrich_from_text_positive in Hv. lia.
    + destruct (enrich_from_text text !! a); simpl; [eauto|lia].
Qed.

Lemma enrich_from_text_counts_witness :
  Py.counter_get (@enrich_from_text demo_lib "Repair a Machine") "Mechanical"
  = 1.
Proof.
  destruct (@enrich_from_text_counts demo_lib "Repair a Machine" "Mechanical")
    as [H _].
  rewrite H; [|discriminate]. vm_compute. reflexivity.
Defined.

(** ** More on [get_questions_for_pairs] *)

Lemma bind_filter_skip {A B} (P : A → Prop) `{∀ x, Decision (P x)}
    (f : A → list B) l :
  (∀ x, ¬ P x → f x = []) → filter P l ≫= f = l ≫= f.
Proof.
  intros Hf. induction l as [|x l IH]; [done|].
  rewrite filter_cons. case_decide as Hx.
  - by rewrite !bind_cons, IH.
  - by rewrite bind_cons, (Hf x Hx), IH.
Qed.

(** The two calls of the flow.  The first round iterates the set of the
    pairs needed, the later rounds the set of those among them that were
    not asked yet, each in an order of its own.  Whatever the two orders
    are, the calls select the same questions: the results are
    rearrangements of each other, agree on the questions of each pair and
    on their order, and one is empty exactly when the other is. *)
Theorem get_questions_for_pairs_remaining `{QuestionBanks}
    (pairs remaining : list string) (already_asked : gset string) :
  NoDup pairs → NoDup remaining →
  (∀ p, p ∈ remaining ↔ p ∈ pairs ∧ p ∉ already_asked) →
  get_questions_for_pairs remaining already_asked
  ≡ₚ get_questions_for_pairs pairs already_asked
  ∧ (∀ p, questions_for p (get_questions_for_pairs remaining already_asked)
          = questions_for p (get_questions_for_pairs pairs already_asked))
  ∧ (get_questions_for_pairs remaining already_asked = []
     ↔ get_questions_for_pairs pairs already_asked = []).
Proof.
  intros Hpairs Hremaining Hrem.
  assert (get_questions_for_pairs remaining already_asked
          ≡ₚ get_questions_for_pairs pairs already_asked) as Hperm.
  { rewrite !get_questions_for_pairs_bind.
    rewrite <- (bind_filter_skip (λ p, p ∉ already_asked) _ pairs).
    - apply bind_Permutation.
      apply NoDup_Permutation; [done|by apply NoDup_filter|].
      intros p. rewrite list_elem_of_filter, Hrem. tauto.
    - intros p Hp. rewrite bool_decide_eq_true_2; [done|].
      by apply dec_stable. }
  split; [done|]. split.
  - intros p. rewrite !questions_for_result by done.
    apply decide_ext. rewrite Hrem. tauto.
  - split; intros Hnil.
    + apply Permutation_nil_r. by rewrite <- Hperm, Hnil.
    + apply Permutation_nil_r. by rewrite Hperm, Hnil.
Qed.

Lemma get_questions_for_pairs_remaining_witness :
  q_number <$> @get_questions_for_pairs demo_banks ["I-R"; "C-E"] {["A-I"]}
  ≡ₚ q_number <$>
     @get_questions_for_pairs demo_banks ["C-E"; "A-I"; "I-R"] {["A-I"]}.
Proof.
  destruct (@get_questions_for_pairs_remaining demo_banks
              ["C-E"; "A-I"; "I-R"] ["I-R"; "C-E"] {["A-I"]}) as [Hperm _].
  - compute_decide.
  - compute_decide.
  - intros p. rewrite !elem_of_cons, !elem_of_nil, not_elem_of_singleton.
    split.
    + intros [->|[->|[]]]; (split; [tauto|discriminate]).
    + intros [[->|[->|[->|[]]]] Hne]; [tauto|done|tauto].
  - by rewrite Hperm.
Defined.

Lemma contributed_questions `{QuestionBanks} (already_asked : gset string) p q :
  q ∈ (if bool_decide (p ∈ already_asked) then []
       else take 2 (questions_for p TIE_BREAKER_QUESTIONS)) →
  q_pair q = Some p.
Proof.
  case_bool_decide; [by intros ?%elem_of_nil|].
  intros Hq%subseteq_take. by apply list_elem_of_filter in Hq as [? _].
Qed.

(** The result never holds more than two questions per requested pair in
    total, and when the bank lists no question twice, neither does the
    result. *)
Theorem get_questions_for_pairs_distinct `{QuestionBanks}
    (pairs : list string) (already_asked : gset string) :
  (length (get_questions_for_pairs pairs already_asked) ≤ 2 * length pairs)%nat
  ∧ (NoDup pairs → NoDup TIE_BREAKER_QUESTIONS →
     NoDup (get_questions_for_pairs pairs already_asked)).
Proof.
  rewrite get_questions_for_pairs_bind. split.
  - induction pairs as [|p pairs IH]; [done|].
    rewrite bind_cons, length_app. simpl length.
    case_bool_decide; [simpl; lia|].
    rewrite length_take. lia.
  - intros Hpairs Hbank.
    induction Hpairs as [|p pairs Hp Hpairs IH]; [constructor|].
    rewrite bind_cons. apply NoDup_app. split; [|split; [|done]].
    + case_bool_decide; [constructor|].
      eapply sublist_NoDup; [exact Hbank|].
      etrans; [apply sublist_take|]. apply sublist_filter.
    + intros q Hq Hq'. apply contributed_questions in Hq.
      apply list_elem_of_bind in Hq' as (p' & Hq' & Hp').
      apply contributed_questions in Hq'. congruence.
Qed.

Lemma get_questions_for_pairs_distinct_witness :
  NoDup (@get_questions_for_pairs demo_banks ["A-I"; "I-R"; "C-E"] ∅).
Proof.
  apply (@get_questions_for_pairs_distinct demo_banks
           ["A-I"; "I-R"; "C-E"] ∅).
  - compute_decide.
  - apply NoDup_fmap_1 with (f := q_number). compute_decide.
Defined.

(** ** The flow of a session *)

Import Flow.

Lemma elem_of_set_iter `{SetOrder} (X : gset string) p : p ∈ set_iter X ↔ p ∈ X.
Proof. by rewrite set_iter_perm, elem_of_elements. Qed.

Lemma NoDup_set_iter `{SetOrder} (X : gset string) : NoDup (set_iter X).
Proof. rewrite set_iter_perm. apply NoDup_elements. Qed.

Lemma elem_of_marked `{SetOrder} (asked : list string) (ps : list string) p :
  p ∈ set_iter (list_to_set asked
                ∪ list_to_set
                    (filter (λ p, p ∉ (list_to_set asked : gset string)) ps))
  ↔ p ∈ asked ∨ (p ∈ ps ∧ p ∉ asked).
Proof.
  rewrite elem_of_set_iter, elem_of_union, !elem_of_list_to_set.
  rewrite list_elem_of_filter, elem_of_list_to_set. tauto.
Qed.

Lemma py_index_in_range {A} (l : list A) (i : Z) :
  0 ≤ i < Z.of_nat (length l) → is_Some (py_index l i).
Proof.
  intros Hi. unfold py_index.
  destruct (Z.leb_spec 0 i); [|lia].
  apply lookup_lt_is_Some_2. lia.
Qed.

Lemma dict_set_keys k v d :
  NoDup (d.*1) → NoDup ((dict_set k v d).*1)
  ∧ ∀ k', k' ∈ (dict_set k v d).*1 ↔ k' = k ∨ k' ∈ d.*1.
Proof.
  induction d as [|[k0 v0] d IH]; intros Hnd.
  { simpl. split; [apply NoDup_singleton|].
    intros k'. rewrite list_elem_of_singleton, elem_of_nil. tauto. }
  rewrite fmap_cons in Hnd. apply NoDup_cons in Hnd as [Hk0 Hnd].
  destruct (IH Hnd) as [IH1 IH2]. cbn [dict_set].
  case_decide as Hk; rewrite !fmap_cons; simpl.
  - subst k0. split; [by apply NoDup_cons|].
    intros k'. rewrite elem_of_cons. tauto.
  - split.
    + apply NoDup_cons. split; [|done].
      rewrite IH2. intros [?|?]; [congruence|done].
    + intros k'. rewrite !elem_of_cons, IH2. tauto.
Qed.

(** Reading a key of a session that has just been written. *)
Ltac simpl_session :=
  cbn [total_questions current_question tie_breaker_answered
       tie_breaker_questions tie_breaker_pairs_asked tie_breaker_phase
       answers riasec_scores
       set_total_questions set_tie_breaker_answered
       set_tie_breaker_pairs_asked set_tie_breaker_questions
       set_tie_breaker_phase set_answers set_current_question
       initialize_session] in *.

Section flow_invariant.
Context `{PyLib, QuestionBanks, Config, SetOrder}.

Lemma consistent_initialize_session : consistent initialize_session.
Proof.
  split; simpl_session.
  - simpl. lia.
  - lia.
  - lia.
  - intros q Hq. by apply elem_of_nil in Hq.
  - intros p. simpl. lia.
  - done.
  - constructor.
Qed.

Lemma consistent_tie_breaker_phase s :
  consistent s → consistent (set_tie_breaker_phase true s).
Proof. intros [? ? ? ? ? ? ?]. by split. Qed.

(** The first round: the questions found replace the (empty) list. *)
Lemma consistent_first_round s (X : gset string) q qs :
  consistent s →
  get_questions_for_pairs (set_iter X)
    (list_to_set (tie_breaker_pairs_asked s)) = q :: qs →
  consistent
    (set_total_questions
       (Z.of_nat (length QUESTIONS) + Z.of_nat (length (q :: qs)))
       (set_tie_breaker_answered 0
          (set_tie_breaker_pairs_asked
             (set_iter
                (list_to_set (tie_breaker_pairs_asked s)
                 ∪ list_to_set
                     (filter (λ p, p ∉ (list_to_set
                                          (tie_breaker_pairs_asked s)
                                        : gset string))
                             (set_iter X))))
             (set_tie_breaker_questions (q :: qs)
                (set_tie_breaker_phase true s))))).
Proof.
  intros [Ht Hcur Hans Hasked Htwo Hmain Hkeys] Hq.
  split; simpl_session; try done.
  - intros q' Hq'. rewrite <-Hq in Hq'.
    apply elem_of_get_questions_for_pairs in Hq' as (p & Hp & Hin & Hnew & Hbank).
    split; [done|]. exists p. split; [done|].
    apply elem_of_marked. right. split; [done|].
    by rewrite elem_of_list_to_set in Hnew.
  - intros p. rewrite <-Hq.
    rewrite questions_for_result by apply NoDup_set_iter.
    case_decide; [rewrite length_take|simpl]; lia.
Qed.

(** A later round: the questions found are added at the end. *)
Lemma consistent_next_round s (X : gset string) q qs :
  consistent s → tie_breaker_phase s = true →
  get_questions_for_pairs (set_iter X)
    (list_to_set (tie_breaker_pairs_asked s)) = q :: qs →
  consistent
    (set_total_questions
       (total_questions s + Z.of_nat (length (q :: qs)))
       (set_tie_breaker_pairs_asked
          (set_iter
             (list_to_set (tie_breaker_pairs_asked s)
              ∪ list_to_set
                  (filter (λ p, p ∉ (list_to_set (tie_breaker_pairs_asked s)
                                     : gset string))
                          (set_iter X))))
          (set_tie_breaker_questions (tie_breaker_questions s ++ q :: qs)
             s))).
Proof.
  intros [Ht Hcur Hans Hasked Htwo Hmain Hkeys] Hphase Hq.
  split; simpl_session; try done.
  - rewrite length_app, Ht. lia.
  - intros q' [Hq'|Hq']%elem_of_app.
    + destruct (Hasked q' Hq') as (Hbank & p & Hp & Hin).
      split; [done|]. exists p. split; [done|].
      apply elem_of_marked. by left.
    + rewrite <-Hq in Hq'.
      apply elem_of_get_questions_for_pairs in Hq'
        as (p & Hp & Hin & Hnew & Hbank).
      split; [done|]. exists p. split; [done|].
      apply elem_of_marked. right. split; [done|].
      by rewrite elem_of_list_to_set in Hnew.
  - intros p. rewrite questions_for_app, length_app. rewrite <-Hq.
    rewrite questions_for_result by apply NoDup_set_iter.
    case_decide as Hp; [|specialize (Htwo p); simpl length; lia].
    destruct Hp as [_ Hnew]. rewrite elem_of_list_to_set in Hnew.
    assert (questions_for p (tie_breaker_questions s) = []) as ->.
    { apply filter_none, Forall_forall. intros q' Hq' Hpair.
      destruct (Hasked q' Hq') as (_ & p' & Hp' & Hin). congruence. }
    rewrite length_take. simpl length. lia.
  - congruence.
Qed.

Lemma consistent_assessment s :
  consistent s →
  ∃ s', (assessment (Some s)).1 = Some s' ∧ consistent s'.
Proof.
  intros Hc. unfold assessment.
  destruct (tie_breaker_phase s) eqn:Hph; cbn [negb].
  - destruct (_ <? _).
    { destruct (py_index _ _); by exists s. }
    cbv zeta. case_bool_decide; [|by exists s].
    destruct (get_questions_for_pairs _ _) as [|q qs] eqn:Hq; [by exists s|].
    eexists. split; [reflexivity|].
    exact (consistent_next_round s _ q qs Hc Hph Hq).
  - destruct (_ <=? _).
    { destruct (py_index _ _); by exists s. }
    cbv zeta. case_bool_decide.
    2:{ by exists s. }
    destruct (get_questions_for_pairs _ _) as [|q qs] eqn:Hq.
    { eexists. split; [reflexivity|]. by apply consistent_tie_breaker_phase. }
    eexists. split; [reflexivity|].
    exact (consistent_first_round s _ q qs Hc Hq).
Qed.

Lemma consistent_save_answer question_number answer s :
  consistent s →
  ∃ s', (save_answer question_number answer (Some s)).1 = Some s'
        ∧ consistent s'.
Proof.
  intros Hc. unfold save_answer.
  destruct question_number as [qnum|]; [|by exists s].
  destruct answer as [ans|]; [|by exists s].
  cbv zeta. eexists. split; [reflexivity|].
  set (s1 := set_answers _ s).
  assert (consistent s1) as Hc1.
  { destruct Hc as [Ht Hcur Hans Hasked Htwo Hmain Hkeys].
    split; try done; simpl_session. by apply dict_set_keys. }
  clearbody s1. clear Hc s.
  set (s2 := if _ <? _ then _ else s1).
  assert (consistent s2) as Hc2.
  { subst s2. destruct (_ <? _); [|done].
    destruct (find_question _ _) as [qobj|]; [|done].
    destruct (q_pair qobj) as [p|]; [|done].
    case_bool_decide; [|done].
    destruct Hc1 as [Ht Hcur Hans Hasked Htwo Hmain Hkeys].
    split; try done; simpl_session. intros q Hq.
    destruct (Hasked q Hq) as (Hbank & p' & Hp' & Hin).
    split; [done|]. exists p'. split; [done|].
    apply elem_of_app. by left. }
  clearbody s2. clear Hc1 s1.
  destruct Hc2 as [Ht Hcur Hans Hasked Htwo Hmain Hkeys].
  destruct (tie_breaker_phase s2) eqn:Hph; cbn [negb];
    split; simpl_session; try done; try lia;
    first [congruence | intros _; by apply Hmain].
Qed.

Lemma reachable_consistent session :
  reachable session → ∀ s, session = Some s → consistent s.
Proof.
  induction 1 as [|session _ _|session _ IH|qn ans session _ IH|session _ _];
    intros s Hs.
  - discriminate.
  - injection Hs as <-. apply consistent_initialize_session.
  - destruct session as [s0|]; [|discriminate].
    destruct (consistent_assessment s0) as (s' & Hs' & Hc); [by apply IH|].
    rewrite Hs' in Hs. by injection Hs as <-.
  - destruct session as [s0|]; [|discriminate].
    destruct (consistent_save_answer qn ans s0) as (s' & Hs' & Hc);
      [by apply IH|].
    rewrite Hs' in Hs. by injection Hs as <-.
  - discriminate.
Qed.

End flow_invariant.

Lemma elem_of_dict_set k v d k' v' :
  NoDup (d.*1) →
  (k', v') ∈ dict_set k v d ↔ (k' = k ∧ v' = v) ∨ (k' ≠ k ∧ (k', v') ∈ d).
Proof.
  induction d as [|[k0 v0] d IH]; intros Hnd.
  { simpl. rewrite list_elem_of_singleton, elem_of_nil. naive_solver. }
  rewrite fmap_cons in Hnd. apply NoDup_cons in Hnd as [Hk0 Hnd].
  cbn [dict_set]. case_decide as Hk; rewrite !elem_of_cons.
  - subst k0. split.
    + intros [[= -> ->]|Hin]; [by left|]. right. split; [|by right].
      intros ->. apply Hk0. by apply (list_elem_of_fmap_2 fst) in Hin.
    + intros [[-> ->]|[Hne [[= ? ?]|Hin]]]; [by left|congruence|by right].
  - rewrite IH by done. split.
    + intros [[= -> ->]|[?|[? ?]]]; [right; split; [congruence|by left]|by left|].
      right. split; [done|by right].
    + intros [[-> ->]|[Hne [[= -> ->]|Hin]]];
        [right; by left|by left|right; by right].
Qed.

(** In every session that the routes can produce, the advertised total is
    the size of the main bank plus the number of tie-breaker questions
    assigned so far. *)
Theorem session_total_questions `{PyLib, QuestionBanks, Config, SetOrder} s :
  reachable (Some s) →
  total_questions s =
  Z.of_nat (length QUESTIONS) + Z.of_nat (length (tie_breaker_questions s)).
Proof.
  intros Hr. by destruct (reachable_consistent _ Hr s eq_refl).
Qed.

(** In every session that the routes can produce, each tie-breaker
    question assigned comes from the tie-breaker bank and its pair is
    marked as asked, and no pair has more than two questions assigned,
    over all rounds together; before the tie-breaker phase no question is
    assigned. *)
Theorem session_pairs_asked_once `{PyLib, QuestionBanks, Config, SetOrder} s :
  reachable (Some s) →
  (∀ q, q ∈ tie_breaker_questions s →
     q ∈ TIE_BREAKER_QUESTIONS
     ∧ ∃ p, q_pair q = Some p ∧ p ∈ tie_breaker_pairs_asked s)
  ∧ (∀ p, (length (questions_for p (tie_breaker_questions s)) ≤ 2)%nat)
  ∧ (tie_breaker_phase s = false → tie_breaker_questions s = []).
Proof.
  intros Hr. by destruct (reachable_consistent _ Hr s eq_refl).
Qed.

(** Serving a question reads no list out of range: in every session that
    the routes produce from string answers, [QUESTIONS[current_question -
    1]] and [tie_qs[answered]] exist whenever [/assessment] reads them, so
    that it answers with a page or a redirect; without a session it
    redirects to the index page.  (An answer that is no string is outside
    this statement: the scoring may then raise [TypeError].) *)
Theorem assessment_index_in_range `{PyLib, QuestionBanks, Config, SetOrder}
    session :
  reachable session →
  (assessment session).2 ≠ raise_IndexError
  ∧ (session = None → assessment session = (None, redirect to_index)).
Proof.
  intros Hr. split; [|by intros ->].
  destruct session as [s|]; [|done].
  destruct (reachable_consistent _ Hr s eq_refl)
    as [Ht Hcur Hans Hasked Htwo Hmain Hkeys].
  unfold assessment.
  destruct (tie_breaker_phase s); cbn [negb].
  - destruct (Z.ltb_spec (tie_breaker_answered s)
                (Z.of_nat (length (tie_breaker_questions s)))) as [Hlt|_].
    + destruct (py_index_in_range (tie_breaker_questions s)
                  (tie_breaker_answered s)) as [q ->]; [lia|done].
    + cbv zeta. case_bool_decide; [|done].
      by destruct (get_questions_for_pairs _ _).
  - destruct (Z.leb_spec (current_question s) (Z.of_nat (length QUESTIONS)))
      as [Hle|_].
    + destruct (py_index_in_range QUESTIONS (current_question s - 1))
        as [q ->]; [lia|done].
    + cbv zeta. case_bool_decide; [|done].
      by destruct (get_questions_for_pairs _ _).
Qed.

(** [/assessment] only ever adds to what the session holds: the answers
    and the pointer into the main bank are left alone, the tie-breaker
    questions already assigned keep their places in front of the new ones,
    and every pair marked as asked stays marked. *)
Theorem assessment_only_adds `{PyLib, QuestionBanks, Config, SetOrder} s :
  reachable (Some s) →
  ∃ s', (assessment (Some s)).1 = Some s'
    ∧ answers s' = answers s
    ∧ current_question s' = current_question s
    ∧ tie_breaker_questions s `prefix_of` tie_breaker_questions s'
    ∧ tie_breaker_pairs_asked s ⊆ tie_breaker_pairs_asked s'.
Proof.
  intros Hr.
  destruct (reachable_consistent _ Hr s eq_refl)
    as [Ht Hcur Hans Hasked Htwo Hmain Hkeys].
  unfold assessment.
  destruct (tie_breaker_phase s) eqn:Hph; cbn [negb].
  - destruct (_ <? _).
    { destruct (py_index _ _); by exists s. }
    cbv zeta. case_bool_decide; [|by exists s].
    destruct (get_questions_for_pairs _ _) as [|q qs]; [by exists s|].
    eexists. split; [reflexivity|]. simpl_session.
    split; [done|]. split; [done|]. split; [by apply prefix_app_r|].
    intros p Hp. apply elem_of_marked. by left.
  - destruct (_ <=? _).
    { destruct (py_index _ _); by exists s. }
    cbv zeta. case_bool_decide; [|by exists s].
    destruct (get_questions_for_pairs _ _) as [|q qs].
    { eexists. split; [reflexivity|]. by simpl_session. }
    eexists. split; [reflexivity|]. simpl_session.
    split; [done|]. split; [done|].
    split; [rewrite (Hmain eq_refl); apply prefix_nil|].
    intros p Hp. apply elem_of_marked. by left.
Qed.

(** [/save_answer] records the answer under the decimal form of the
    question number, replacing an earlier answer to the same question;
    the answers to all other questions stay as they were and no key
    occurs twice.  A payload that lacks the number or the answer changes
    nothing. *)
Theorem save_answer_records `{PyLib, QuestionBanks, Config, SetOrder}
    s question_number answer :
  reachable (Some s) →
  (∀ qnum ans, question_number = Some qnum → answer = Some ans →
     ∃ s', (save_answer question_number answer (Some s)).1 = Some s'
       ∧ (py_str qnum, ans) ∈ answers s'
       ∧ NoDup (answers s').*1
       ∧ (∀ n v, n ≠ qnum →
            (py_str n, v) ∈ answers s' ↔ (py_str n, v) ∈ answers s)
       ∧ (∀ v, (py_str qnum, v) ∈ answers s' → v = ans))
  ∧ (question_number = None ∨ answer = None →
     save_answer question_number answer (Some s) =
     (Some s, jsonify_msg false "missing payload")).
Proof.
  intros Hr.
  destruct (reachable_consistent _ Hr s eq_refl)
    as [Ht Hcur Hans Hasked Htwo Hmain Hkeys].
  split.
  - intros qnum ans -> ->. unfold save_answer. cbv zeta.
    eexists. split; [reflexivity|].
    set (d := dict_set (py_str qnum) ans (answers s)).
    assert (∀ s0, answers
              (if negb (tie_breaker_phase s0)
               then set_current_question (current_question s0 + 1) s0
               else set_current_question
                      (Z.of_nat (length QUESTIONS)
                       + tie_breaker_answered
                           (set_tie_breaker_answered
                              (tie_breaker_answered s0 + 1) s0) + 1)
                      (set_tie_breaker_answered
                         (tie_breaker_answered s0 + 1) s0))
            = answers s0) as Hstep.
    { intros s0. by destruct (tie_breaker_phase s0). }
    rewrite Hstep.
    assert (∀ s0 : Session,
              answers
                (if Z.of_nat (length QUESTIONS) <? qnum
                 then match find_question TIE_BREAKER_QUESTIONS qnum with
                      | Some qobj =>
                          match q_pair qobj with
                          | Some pair' =>
                              if bool_decide
                                   (pair' ≠ ""
                                    ∧ pair' ∉ tie_breaker_pairs_asked s0)
                              then set_tie_breaker_pairs_asked
                                     (tie_breaker_pairs_asked s0 ++ [pair'])
                                     s0
                              else s0
                          | None => s0
                          end
                      | None => s0
                      end
                 else s0) = answers s0) as Hmark.
    { intros s0. destruct (_ <? _); [|done].
      destruct (find_question _ _) as [qobj|]; [|done].
      destruct (q_pair qobj); [|done]. by case_bool_decide. }
    rewrite Hmark. simpl_session. fold d.
    split; [apply elem_of_dict_set; auto|].
    split; [by apply dict_set_keys|].
    split.
    + intros n v Hn. unfold d. rewrite elem_of_dict_set by done.
      split; [intros [[Heq _]|[_ ?]]; [|done]|intros ?; right; split; [|done]].
      * by apply (inj py_str) in Heq.
      * intros Heq. by apply (inj py_str) in Heq.
    + intros v Hv. apply elem_of_dict_set in Hv as [[_ ->]|[? _]]; done.
  - intros [-> | ->]; [done|]. by destruct question_number.
Qed.

(** While the main bank lasts, the questions are served in bank order:
    after [/start] and any [n] complete answers, [/assessment] shows the
    question at position [n] of the main bank, numbered [n + 1]. *)
Theorem main_questions_in_order `{PyLib, QuestionBanks, Config, SetOrder}
    (payloads : list (option Z * option string)) q :
  Forall (λ pl, is_Some pl.1 ∧ is_Some pl.2) payloads →
  QUESTIONS !! length payloads = Some q →
  (assessment
     (foldl (λ session pl, (save_answer pl.1 pl.2 session).1)
            (start_assessment None).1 payloads)).2
  = render_assessment q main (Z.of_nat (length QUESTIONS))
      (Z.of_nat (length payloads) + 1).
Proof.
  intros Hpl Hq.
  assert (∃ s,
    foldl (λ session pl, (save_answer pl.1 pl.2 session).1)
          (start_assessment None).1 payloads = Some s
    ∧ tie_breaker_phase s = false
    ∧ current_question s = Z.of_nat (length payloads) + 1) as (s & -> & Hph & Hcur).
  { clear Hq. induction payloads as [|[qn ans] payloads IH] using rev_ind.
    { by exists initialize_session. }
    apply Forall_app in Hpl as [Hpl Hlast].
    apply List.Forall_inv in Hlast. simpl in Hlast.
    destruct Hlast as [Hqn Hans]. destruct Hqn as [qnum ->].
    destruct Hans as [a ->].
    destruct (IH Hpl) as (s & Hs & Hph & Hcur).
    rewrite foldl_app, Hs. cbn [foldl fst snd]. unfold save_answer. cbv zeta.
    eexists. split; [reflexivity|].
    set (s1 := set_answers _ s).
    assert (tie_breaker_phase s1 = false ∧ current_question s1 = current_question s)
      as Hs1 by done.
    clearbody s1.
    set (s2 := if _ <? _ then _ else s1).
    assert (tie_breaker_phase s2 = false ∧ current_question s2 = current_question s)
      as [Hph2 Hcur2].
    { subst s2. destruct (_ <? _); [|done].
      destruct (find_question _ _) as [qobj|]; [|done].
      destruct (q_pair qobj); [|done]. by case_bool_decide. }
    clearbody s2. rewrite Hph2. cbn [negb]. simpl_session.
    split; [done|]. rewrite length_app. simpl length. lia. }
  apply lookup_lt_Some in Hq as Hlt.
  unfold assessment. rewrite Hph, Hcur. cbn [negb].
  destruct (Z.leb_spec (Z.of_nat (length payloads) + 1)
              (Z.of_nat (length QUESTIONS))); [|lia].
  unfold py_index.
  destruct (Z.leb_spec 0 (Z.of_nat (length payloads) + 1 - 1)); [|lia].
  replace (Z.to_nat (Z.of_nat (length payloads) + 1 - 1))
    with (length payloads) by lia.
  by rewrite Hq.
Qed.

(** *** The flow at work on the small installation *)

Lemma demo_session_reachable :
  @reachable demo_lib demo_banks default_config elements_order
    (Some demo_session).
Proof.
  exact (@reachable_assessment demo_lib demo_banks default_config
           elements_order _
           (reachable_save_answer (Some 2) (Some "A") _
              (reachable_save_answer (Some 1) (Some "B") _
                 (reachable_start None reachable_none)))).
Qed.

Lemma session_total_questions_witness : total_questions demo_session = 3.
Proof.
  rewrite (@session_total_questions demo_lib demo_banks default_config
             elements_order demo_session demo_session_reachable).
  reflexivity.
Defined.

Lemma session_pairs_asked_once_witness :
  (length (questions_for "A-I" (tie_breaker_questions demo_session)) ≤ 2)%nat.
Proof.
  destruct (@session_pairs_asked_once demo_lib demo_banks default_config
              elements_order demo_session demo_session_reachable)
    as (_ & H & _).
  apply H.
Defined.

Lemma assessment_index_in_range_witness :
  (@assessment demo_lib demo_banks default_config elements_order
     (Some demo_session)).2 ≠ raise_IndexError.
Proof.
  apply (@assessment_index_in_range demo_lib demo_banks default_config
           elements_order (Some demo_session) demo_session_reachable).
Defined.

Lemma assessment_only_adds_witness :
  ∃ s', (@assessment demo_lib demo_banks default_config elements_order
           (Some demo_session)).1 = Some s'
    ∧ answers s' = answers demo_session
    ∧ current_question s' = current_question demo_session
    ∧ tie_breaker_questions demo_session `prefix_of` tie_breaker_questions s'
    ∧ tie_breaker_pairs_asked demo_session ⊆ tie_breaker_pairs_asked s'.
Proof.
  apply (@assessment_only_adds demo_lib demo_banks default_config
           elements_order demo_session demo_session_reachable).
Defined.

Lemma save_answer_records_witness :
  ∃ s', (@save_answer demo_banks (Some 4) (Some "B") (Some demo_session)).1
        = Some s'
    ∧ ("4", "B") ∈ answers s'.
Proof.
  destruct (@save_answer_records demo_lib demo_banks default_config
              elements_order demo_session (Some 4) (Some "B")
              demo_session_reachable) as [H _].
  destruct (H 4 "B" eq_refl eq_refl) as (s' & Hs' & Hin & _).
  by exists s'.
Defined.

Lemma main_questions_in_order_witness :
  ∃ q, (@assessment demo_lib demo_banks default_config elements_order
          (@save_answer demo_banks (Some 1) (Some "B")
             (@start_assessment demo_banks None).1).1).2
       = render_assessment q main 2 2
       ∧ q_number q = 2.
Proof.
  eexists. split.
  - apply (@main_questions_in_order demo_lib demo_banks default_config
             elements_order [(Some 1, Some "B")]).
    + apply Forall_singleton. split; eexists; reflexivity.
    + reflexivity.
  - reflexivity.
Defined.

(** Whenever [/assessment] assigns tie-breaker questions, it marks at
    least one pair that was not marked before: a round can only be
    opened by a pair that was never asked. *)
Theorem assessment_round_marks_new_pair
    `{PyLib, QuestionBanks, Config, SetOrder} s s' :
  (assessment (Some s)).1 = Some s' →
  tie_breaker_questions s' ≠ tie_breaker_questions s →
  ∃ p, p ∈ tie_breaker_pairs_asked s' ∧ p ∉ tie_breaker_pairs_asked s.
Proof.
  unfold assessment.
  destruct (tie_breaker_phase s) eqn:Hph; cbn [negb].
  - destruct (_ <? _).
    { destruct (py_index _ _); intros [= <-]; done. }
    cbv zeta. case_bool_decide; [|intros [= <-]; done].
    destruct (get_questions_for_pairs _ _) as [|q qs] eqn:Hq;
      [intros [= <-]; done|].
    intros [= <-] _. simpl_session.
    assert (q ∈ q :: qs) as Hin by by left. rewrite <-Hq in Hin.
    apply elem_of_get_questions_for_pairs in Hin as (p & _ & Hp & Hnew & _).
    rewrite elem_of_list_to_set in Hnew.
    exists p. split; [|done]. apply elem_of_marked. by right.
  - destruct (_ <=? _).
    { destruct (py_index _ _); intros [= <-]; done. }
    cbv zeta. case_bool_decide; [|intros [= <-]; done].
    destruct (get_questions_for_pairs _ _) as [|q qs] eqn:Hq;
      [intros [= <-]; done|].
    intros [= <-] _. simpl_session.
    assert (q ∈ q :: qs) as Hin by by left. rewrite <-Hq in Hin.
    apply elem_of_get_questions_for_pairs in Hin as (p & _ & Hp & Hnew & _).
    rewrite elem_of_list_to_set in Hnew.
    exists p. split; [|done]. apply elem_of_marked. by right.
Qed.

Lemma assessment_round_marks_new_pair_witness :
  ∃ p, p ∈ tie_breaker_pairs_asked demo_session
       ∧ p ∉ tie_breaker_pairs_asked demo_session_answered.
Proof.
  apply (@assessment_round_marks_new_pair demo_lib demo_banks default_config
           elements_order demo_session_answered demo_session).
  - vm_compute. reflexivity.
  - discriminate.
Defined.

(** The name of a pair does not depend on the order in which the two
    categories are given, and puts the smaller letter first, as the
    [pair] fields of the tie-breaker bank do. *)
Theorem pair_name_canonical a b :
  pair_name a b = pair_name b a
  ∧ ∃ x y, String.le x y ∧ ((x = a ∧ y = b) ∨ (x = b ∧ y = a))
           ∧ pair_name a b = x +:+ "-" +:+ y.
Proof.
  split; [apply pair_name_comm|].
  rewrite pair_name_unfold. destruct (String.ltb b a) eqn:Hba.
  - exists b, a. split; [|by auto].
    apply string_ltb_false_le. by apply string_ltb_asym.
  - exists a, b. split; [|by auto]. by apply string_ltb_false_le.
Qed.
